(** * jquery.toc: identifier assignment and outline construction

    A shallow embedding of [src/jquery.toc.js].  The plugin walks the
    headings of a document in document order, gives every heading without
    an [id] attribute a generated one, and then builds a nested list of
    links, one item per heading, with an "upside-down" stack of the lists
    that are currently open.

    Modelling choices.
    - A JavaScript string is a sequence of UTF-16 code units: [list N].
      [js "..."] turns a Rocq string literal into code units.
    - [document.getElementById] is a look-up in the set of [id] attribute
      values of the document (the registry); by the DOM standard an element
      whose [id] attribute is the empty string has no ID, so the look-up of
      the empty string is always [null].
    - The headings are elements of that document (the default [content]
      is the body), so their own [id] attributes, old and new, are part of
      what the look-up sees.
    - The [while] loop of [generateUniqueId] is a fuelled recursion whose
      fuel is the size of the registry plus one; [None] stands for a loop
      that has not finished, and the loop is proved to finish.
    - The DOM under the root list is a rose tree; a jQuery object in the
      stack is a reference to an element, modelled as the position (path of
      child indices) of that element.  The tree only grows by [appendTo],
      which adds a last child, so positions are stable.
    - The counter [count] is a JavaScript number; it is exact below 2^53
      and is modelled as an unbounded [N]. *)

From Stdlib Require Import String Ascii ZArith Lia.
From stdpp Require Import base option list numbers gmap sets pretty.

Local Open Scope N_scope.

(** ** JavaScript strings *)

Abbreviation jsstring := (list N).

Definition js (s : string) : jsstring :=
  N_of_ascii <$> list_ascii_of_string s.

(** [\s]: WhiteSpace and LineTerminator code points of ECMAScript. *)
Definition is_space (c : N) : bool :=
  ((9 <=? c) && (c <=? 13)) || (c =? 32) || (c =? 160) || (c =? 5760)
  || ((8192 <=? c) && (c <=? 8202)) || (c =? 8232) || (c =? 8233)
  || (c =? 8239) || (c =? 8287) || (c =? 12288) || (c =? 65279).

(** [\w]: [A-Za-z0-9_]. *)
Definition is_word (c : N) : bool :=
  ((48 <=? c) && (c <=? 57)) || ((65 <=? c) && (c <=? 90)) || (c =? 95)
  || ((97 <=? c) && (c <=? 122)).

(** [text.replace(/\s+/g, ' ')]: every maximal run of white space becomes
    one space; [in_run] tells that the previous code unit was white space. *)
Fixpoint collapse_go (in_run : bool) (s : jsstring) : jsstring :=
  match s with
  | [] => []
  | c :: s' =>
      if is_space c
      then (if in_run then collapse_go true s' else 32 :: collapse_go true s')
      else c :: collapse_go false s'
  end.

Definition collapse_spaces (s : jsstring) : jsstring := collapse_go false s.

(** The class [[^\w\-\s]] is deleted: a code unit is kept when it is a
    word character, a hyphen or white space. *)
Definition is_allowed (c : N) : bool := is_word c || (c =? 45) || is_space c.

Definition strip_invalid (s : jsstring) : jsstring := filter (λ c, is_allowed c = true) s.

(** [text.replace(/\s/g, spaceReplacement)]. *)
Definition replace_spaces (sep : jsstring) (s : jsstring) : jsstring :=
  s ≫= (λ c, if is_space c then sep else [c]).

(** [toLowerCase] and [toUpperCase], code unit by code unit.  Both are only
    applied to sanitised text, whose code units are ASCII
    (see [sanitise_chars]); there the case mappings touch letters only. *)
Definition lower_char (c : N) : N := if (65 <=? c) && (c <=? 90) then c + 32 else c.
Definition upper_char (c : N) : N := if (97 <=? c) && (c <=? 122) then c - 32 else c.

Definition toLowerCase (s : jsstring) : jsstring := lower_char <$> s.
Definition toUpperCase (s : jsstring) : jsstring := upper_char <$> s.

(** [str.split(' ')] for a one-unit separator: never an empty array. *)
Fixpoint split (d : N) (s : jsstring) : list jsstring :=
  match s with
  | [] => [[]]
  | c :: s' =>
      if c =? d then [] :: split d s'
      else match split d s' with
           | w :: ws => (c :: w) :: ws
           | [] => [[c]]
           end
  end.

(** [word.charAt(0)] and [word.slice(1)]. *)
Definition charAt0 (w : jsstring) : jsstring := take 1 w.
Definition slice1 (w : jsstring) : jsstring := drop 1 w.

(** [toCamelCase], lines 66-75. *)
Definition toCamelCase (str : jsstring) : jsstring :=
  mjoin (imap (λ index word,
                 if decide (index = 0%nat) then toLowerCase word
                 else toUpperCase (charAt0 word) ++ toLowerCase (slice1 word))
              (split 32 str)).

(** Number-to-string conversion of the counter: decimal digits. *)
Definition decimal (n : N) : jsstring := js (pretty n).

(** ** The identifier format *)

Inductive idFormat := Underscore | Kebab | Camel.

(** The [switch] of line 95 on the option string. *)
Definition parse_idFormat (s : string) : idFormat :=
  if String.eqb s "kebab-case" then Kebab
  else if String.eqb s "camelCase" then Camel
  else Underscore.

Definition spaceReplacement (fmt : idFormat) : jsstring :=
  match fmt with
  | Kebab => js "-"
  | Camel => []
  | Underscore => js "_"
  end.

(** ** The registry: the [id] attribute values of the document *)

Abbreviation registry := (gset jsstring).

(** [document.getElementById(s) !== null]. *)
Definition getElementById (reg : registry) (s : jsstring) : bool :=
  match s with
  | [] => false
  | _ => bool_decide (s ∈ reg)
  end.

(** ** generateUniqueId, lines 77-114 *)

(** Lines 82-87. *)
Definition sanitise (text : jsstring) : jsstring :=
  let text := if decide (length text = 0%nat) then js "?" else text in
  strip_invalid (collapse_spaces text).

(** Lines 95-107. *)
Definition baseId (fmt : idFormat) (text : jsstring) : jsstring :=
  match fmt with
  | Kebab => toLowerCase (replace_spaces (spaceReplacement Kebab) text)
  | Camel => toCamelCase text
  | Underscore => replace_spaces (spaceReplacement Underscore) text
  end.

(** Lines 109-113: the loop, with [suffix] and [count] as loop state. *)
Fixpoint probe (fuel : nat) (reg : registry) (base sep suffix : jsstring)
    (count : N) : option jsstring :=
  match fuel with
  | O => None
  | S fuel' =>
      if getElementById reg (base ++ suffix)
      then probe fuel' reg base sep (sep ++ decimal count) (count + 1)
      else Some (base ++ suffix)
  end.

Definition generateUniqueId (fmt : idFormat) (reg : registry) (text : jsstring)
    : option jsstring :=
  let text := sanitise text in
  probe (S (size reg)) reg (baseId fmt text) (spaceReplacement fmt) [] 1.

(** ** Headings and the document *)

(** A heading element as the plugin sees it: [$(this).text()], the [id]
    attribute ([None] when absent) and, for every entry of
    [headingSelectors], whether [elem.is(selector)] holds. *)
Record heading := Heading {
  text : jsstring;
  id_attr : option jsstring;
  is_ : list bool
}.

(** The ID of an element in the sense of the DOM: unset when the attribute is
    absent or empty.  It is also the truthiness test of [attr || ...]. *)
Definition element_id (h : heading) : option jsstring :=
  match id_attr h with
  | Some (c :: s) => Some (c :: s)
  | _ => None
  end.

(** The ids [document.getElementById] can find: those of the headings, which
    are elements of the document, and those of all other elements. *)
Definition document_ids (others : registry) (hs : list heading) : registry :=
  others ∪ list_to_set (omap element_id hs).

(** [elem.attr("id", v)]. *)
Definition set_id (v : jsstring) (h : heading) : heading :=
  {| text := text h; id_attr := Some v; is_ := is_ h |}.

(** Line 116: [attr || generateUniqueId($(this).text())]. *)
Definition assign (fmt : idFormat) (reg : registry) (h : heading) : option jsstring :=
  match element_id h with
  | Some v => Some v
  | None => generateUniqueId fmt reg (text h)
  end.

(** Lines 55-117, [.attr("id", function ...)]: the headings are visited in
    document order and each one gets its value before the next one is
    looked at.  [done] are the headings already visited, [todo] the rest;
    both are part of the live document. *)
Fixpoint attr_loop (fmt : idFormat) (others : registry)
    (done todo : list heading) : option (list heading) :=
  match todo with
  | [] => Some done
  | h :: todo' =>
      v ← assign fmt (document_ids others (done ++ todo)) h;
      attr_loop fmt others (done ++ [set_id v h]) todo'
  end.

(** ** The DOM below the root list *)

Inductive tag :=
  | TList                          (* an element with the root's tag name *)
  | TLi                            (* <li> *)
  | TA (txt href : jsstring).      (* <a href=...>text</a> *)

#[warnings="-register-all"]
Inductive node := Node (t : tag) (cs : list node).

Definition tag_of (n : node) : tag := let 'Node t _ := n in t.
Definition children (n : node) : list node := let 'Node _ cs := n in cs.

(** A reference to an element: its position below the root. *)
Abbreviation path := (list nat).

Fixpoint get (t : node) (p : path) : option node :=
  match p with
  | [] => Some t
  | i :: p' => children t !! i ≫= λ c, get c p'
  end.

(** [c.appendTo(p)]: [c] becomes the last child of the element at [p]. *)
Fixpoint append_child (t : node) (p : path) (c : node) : node :=
  match p with
  | [] => Node (tag_of t) (children t ++ [c])
  | i :: p' => Node (tag_of t) (alter (λ t', append_child t' p' c) i (children t))
  end.

Definition is_li (n : node) : bool :=
  match tag_of n with TLi => true | _ => false end.

(** [.children("li:last")[0]]: the index of the last child that is an [li]. *)
Fixpoint last_li (cs : list node) : option nat :=
  match cs with
  | [] => None
  | c :: cs' =>
      match last_li cs' with
      | Some i => Some (S i)
      | None => if is_li c then Some 0%nat else None
      end
  end.

(** ** The outline builder, lines 117-146 *)

(** Lines 119-121: [$.map] keeps the indices of the selectors that match and
    [[0]] takes the first; [None] is [undefined]. *)
Definition level_of (elem : heading) : option nat :=
  head (omap id (imap (λ index b, if b : bool then Some index else None) (is_ elem))).

(** [level > currentLevel]; a comparison with [undefined] is false. *)
Definition js_gt (a b : option nat) : bool :=
  match a, b with
  | Some x, Some y => bool_decide (y < x)%nat
  | _, _ => false
  end.

(** The second argument of [splice] on line 137, as [splice] reads it:
    [NaN] counts as 0 and a negative count as 0. *)
Definition delete_count (currentLevel level : option nat) (len : nat) : nat :=
  match currentLevel, level with
  | Some c, Some l =>
      Z.to_nat (Z.min (Z.of_nat c - Z.of_nat l) (Z.max (Z.of_nat len - 1) 0))
  | _, _ => 0%nat
  end.

(** [elem.attr("id")] inside a string concatenation. *)
Definition attr_string (a : option jsstring) : jsstring :=
  match a with
  | Some v => v
  | None => js "undefined"
  end.

(** Lines 141-143: [<li><a href="#id">text</a></li>]. *)
Definition item (elem : heading) : node :=
  Node TLi [Node (TA (text elem) (js "#" ++ attr_string (id_attr elem))) []].

Record builder := Builder {
  dom : node;
  stack : list path;
  currentLevel : option nat
}.

(** Lines 123-138: the stack before the item is added.  [None] stands for
    the failure of [stack[0]] on an empty stack or of a dangling
    reference; neither happens (see [toc_total]). *)
Definition adjust (b : builder) (level : option nat) : option (node * list path) :=
  if js_gt level (currentLevel b) then
    top ← head (stack b);
    topnode ← get (dom b) top;
    match last_li (children topnode) with
    | Some i =>
        let parentItem := top ++ [i] in
        pnode ← get (dom b) parentItem;
        Some (append_child (dom b) parentItem (Node TList []),
              (parentItem ++ [length (children pnode)]) :: stack b)
    | None => Some (dom b, stack b)
    end
  else
    Some (dom b,
          drop (delete_count (currentLevel b) level (length (stack b))) (stack b)).

(** One run of the body of [.each], lines 117-146. *)
Definition each_step (b : builder) (elem : heading) : option builder :=
  let level := level_of elem in
  '(dom1, stack1) ← adjust b level;
  top ← head stack1;
  Some {| dom := append_child dom1 top (item elem);
          stack := stack1;
          currentLevel := level |}.

Fixpoint each_loop (b : builder) (elems : list heading) : option builder :=
  match elems with
  | [] => Some b
  | elem :: elems' => b' ← each_step b elem; each_loop b' elems'
  end.

(** Lines 33 and 35. *)
Definition init (root : node) : builder :=
  {| dom := root; stack := [[]]; currentLevel := Some 0%nat |}.

(** The plugin on one root element: the ids first, then the outline. *)
Definition toc (fmt : idFormat) (others : registry) (root : node)
    (hs : list heading) : option (list heading * builder) :=
  hs' ← attr_loop fmt others [] hs;
  b ← each_loop (init root) hs';
  Some (hs', b).

(** A heading with text [t], no [id] attribute, at level [l] of three. *)
Definition plain (t : string) (l : nat) : heading :=
  {| text := js t; id_attr := None; is_ := (λ i, bool_decide (i = l)) <$> seq 0 3 |}.

(** A heading with text [t] and the id attribute [i], at level [l] of three. *)
Definition with_id (t i : string) (l : nat) : heading :=
  {| text := js t; id_attr := Some (js i);
     is_ := (λ k, bool_decide (k = l)) <$> seq 0 3 |}.

(** ** Vocabulary of the statements *)

(** The candidates of the loop of [generateUniqueId]: number 0 is the base
    itself, number [k] > 0 is the base followed by the separator and [k]. *)
Definition suffix_of (sep : jsstring) (k : N) : jsstring :=
  if decide (k = 0) then [] else sep ++ decimal k.

Definition candidate (base sep : jsstring) (k : N) : jsstring :=
  base ++ suffix_of sep k.

(** The registry the loop sees when heading number [j] gets its value:
    the headings before it carry their final ids, the others their
    original ones. *)
Definition registry_at (others : registry) (hs final : list heading) (j : nat)
    : registry :=
  document_ids others (take j final ++ drop j hs).

(** The value [.attr] passes to the callback for a heading is truthy. *)
Definition has_id (h : heading) : Prop := is_Some (element_id h).

(** The tags of all elements of a tree, in document order. *)
Fixpoint elements (n : node) : list tag :=
  match n with
  | Node t cs => t :: mjoin (elements <$> cs)
  end.

Definition is_li_tag (t : tag) : bool := match t with TLi => true | _ => false end.
Definition is_list_tag (t : tag) : bool := match t with TList => true | _ => false end.

Definition count_items (n : node) : nat :=
  length (filter (λ t, is_li_tag t = true) (elements n)).
Definition count_lists (n : node) : nat :=
  length (filter (λ t, is_list_tag t = true) (elements n)).

(** The links of a tree: text and target of every anchor. *)
Definition anchor_of (t : tag) : option (jsstring * jsstring) :=
  match t with TA txt href => Some (txt, href) | _ => None end.
Definition anchors (n : node) : list (jsstring * jsstring) :=
  omap anchor_of (elements n).

(** The link the item of a heading holds: its text and "#" + its id. *)
Definition link (elem : heading) : jsstring * jsstring :=
  (text elem, js "#" ++ attr_string (id_attr elem)).

(** Two headings that agree on what the plugin reads from them. *)
Definition same_input (h1 h2 : heading) : Prop :=
  text h1 = text h2 ∧ id_attr h1 = id_attr h2 ∧ level_of h1 = level_of h2.

(** The stack of a well-formed builder is not empty, ends with the root and
    refers to elements of the tree only. *)
Definition wf (b : builder) : Prop :=
  last (stack b) = Some [] ∧ Forall (λ p, is_Some (get (dom b) p)) (stack b).

(** ** Options, lines 31 and 38-52 *)

(** An object with the three keys the plugin reads; [None] is a key that
    is absent or [undefined].  The values are strings: what [.data()] makes
    of an attribute that looks like a number or like JSON is not modelled. *)
Record options := Options {
  opt_content : option jsstring;
  opt_headings : option jsstring;
  opt_idFormat : option jsstring
}.

(** [v || undefined]: the empty string is falsy. *)
Definition or_undefined (v : option jsstring) : option jsstring :=
  match v with
  | Some (c :: s) => Some (c :: s)
  | _ => None
  end.

(** One key of [$.extend(target, source)]: [undefined] is not copied. *)
Definition extend_key (target source : option jsstring) : option jsstring :=
  match source with
  | Some v => Some v
  | None => target
  end.

Definition extend (target source : options) : options :=
  {| opt_content := extend_key (opt_content target) (opt_content source);
     opt_headings := extend_key (opt_headings target) (opt_headings source);
     opt_idFormat := extend_key (opt_idFormat target) (opt_idFormat source) |}.

(** Lines 40-44. *)
Definition defaults : options :=
  {| opt_content := Some (js "body");
     opt_headings := Some (js "h1,h2,h3");
     opt_idFormat := Some [] |}.

(** Lines 45-49; [data] holds [data.toc], [data.tocHeadings] and
    [data.idFormat]. *)
Definition from_data (data : options) : options :=
  {| opt_content := or_undefined (opt_content data);
     opt_headings := or_undefined (opt_headings data);
     opt_idFormat := or_undefined (opt_idFormat data) |}.

(** Lines 39-51; [$.extend] skips an argument that is [undefined], which
    [options] is when the plugin is called without one (line 159). *)
Definition thisOptions (data : options) (opts : option options) : options :=
  let merged := extend defaults (from_data data) in
  match opts with
  | Some o => extend merged o
  | None => merged
  end.

(** Line 52; [None] is the failure of [.split] on [undefined]. *)
Definition headingSelectors (o : options) : option (list jsstring) :=
  split 44 <$> opt_headings o.

(** The [switch] of line 95 on the value of [thisOptions.idFormat]. *)
Definition format_of (o : options) : idFormat :=
  match opt_idFormat o with
  | Some s =>
      if decide (s = js "kebab-case") then Kebab
      else if decide (s = js "camelCase") then Camel
      else Underscore
  | None => Underscore
  end.

(** [words.join(d)] for a one-unit separator. *)
Fixpoint join_with (d : N) (ws : list jsstring) : jsstring :=
  match ws with
  | [] => []
  | [w] => w
  | w :: ws' => w ++ d :: join_with d ws'
  end.

(** The characters line 56-58 allows in an id, as far as they are ASCII. *)
Definition valid_id_char (c : N) : bool := is_word c || (c =? 45).

Definition is_upper (c : N) : bool := (65 <=? c) && (c <=? 90).

(** The least candidate number the loop can stop at is bounded by the
    registry; [digit] is what the numbers are written with. *)
Definition is_digit (c : N) : bool := (48 <=? c) && (c <=? 57).

(** The three keys of an options object. *)
Inductive key := Content | Headings | IdFormat.

Definition lookup_key (k : key) (o : options) : option jsstring :=
  match k with
  | Content => opt_content o
  | Headings => opt_headings o
  | IdFormat => opt_idFormat o
  end.

(** A position all of whose steps go to a last child. *)
Fixpoint rightmost (t : node) (p : path) : Prop :=
  match p with
  | [] => True
  | i :: p' =>
      ∃ x, children t !! i = Some x ∧ S i = length (children t) ∧ rightmost x p'
  end.

(** Every entry of the stack is a position above the entries before it. *)
Definition chain (st : list path) : Prop :=
  ∀ i j p q, (i ≤ j)%nat → st !! i = Some p → st !! j = Some q → q `prefix_of` p.

(** The open lists are elements with the list tag. *)
Definition open_lists (b : builder) : Prop :=
  Forall (λ p, ∃ n, get (dom b) p = Some n ∧ tag_of n = TList) (stack b).

(** The open lists hold items only and are on the right edge of the tree. *)
Definition on_the_edge (b : builder) : Prop :=
  chain (stack b)
  ∧ Forall (λ p, rightmost (dom b) p
                 ∧ ∃ n, get (dom b) p = Some n
                     ∧ Forall (λ c, is_li c = true) (children n)) (stack b).

(** The markup of an outline: a list holds items; an item holds a link
    and, possibly, one list after it, which is not empty; a link holds
    nothing. *)
Definition is_link (n : node) : Prop := ∃ txt href, n = Node (TA txt href) [].

Fixpoint well_formed (t : node) : Prop :=
  match t with
  | Node TList cs =>
      (fix items (l : list node) : Prop :=
         match l with
         | [] => True
         | c :: l' => (tag_of c = TLi ∧ well_formed c) ∧ items l'
         end) cs
  | Node TLi cs =>
      match cs with
      | [a] => is_link a
      | [a; l] => is_link a ∧ tag_of l = TList ∧ children l ≠ [] ∧ well_formed l
      | _ => False
      end
  | Node (TA _ _) cs => cs = []
  end.

(** The last item of the list on top of the stack has no list below it. *)
Definition leaf_last (b : builder) : Prop :=
  ∀ top n c, head (stack b) = Some top → get (dom b) top = Some n →
             last (children n) = Some c → length (children c) = 1%nat.

(** * Properties *)

(** ** Strings *)

Lemma js_inj (s1 s2 : string) : js s1 = js s2 → s1 = s2.
Proof.
  unfold js. intros H.
  rewrite <-(string_of_list_ascii_of_string s1), <-(string_of_list_ascii_of_string s2).
  f_equal. revert H. generalize (list_ascii_of_string s1) (list_ascii_of_string s2).
  induction l as [|a l IH]; intros [|b k] H; simplify_eq/=; auto.
  f_equal; [|by apply IH].
  by rewrite <-(ascii_N_embedding a), <-(ascii_N_embedding b), H.
Qed.

Lemma pretty_N_go_length (x : N) (s : string) :
  (String.length s ≤ String.length (pretty_N_go x s))%nat.
Proof.
  revert s. induction (N.lt_wf_0 x) as [x _ IH]; intros s.
  destruct (decide (x = 0)) as [->|Hx]; [by rewrite pretty_N_go_0|].
  rewrite pretty_N_go_step by lia.
  etrans; [|apply IH; apply N.div_lt; lia]. simpl. lia.
Qed.

Lemma decimal_inj (a b : N) : decimal a = decimal b → a = b.
Proof. intros H. apply js_inj in H. by apply (inj pretty). Qed.

Lemma decimal_nonempty (n : N) : decimal n ≠ [].
Proof.
  unfold decimal. intros H. change [] with (js "") in H. apply js_inj in H.
  unfold pretty, pretty_N in H. case_decide; [done|].
  assert (Hl := pretty_N_go_length n ""). rewrite pretty_N_go_step in Hl, H by lia.
  assert (Hl2 := pretty_N_go_length (n `div` 10)
                   (String (pretty_N_char (n `mod` 10)) "")).
  rewrite H in Hl2. simpl in Hl2. lia.
Qed.

(** What is left after lines 82-87 is ASCII: word characters, hyphens and
    the space; the other white space went with the runs it was in. *)
Lemma collapse_go_space (in_run : bool) (s : jsstring) (c : N) :
  c ∈ collapse_go in_run s → is_space c = true → c = 32.
Proof.
  revert in_run. induction s as [|d s IH]; intros in_run; simpl.
  - by intros ?%elem_of_nil.
  - destruct (is_space d) eqn:Hd.
    + destruct in_run; [apply IH|].
      intros [->|?]%elem_of_cons; [done|by eapply IH].
    + intros [->|?]%elem_of_cons Hc; [congruence|by eapply IH].
Qed.

Lemma sanitise_chars (txt : jsstring) (c : N) :
  c ∈ sanitise txt → is_word c = true ∨ c = 45 ∨ c = 32.
Proof.
  unfold sanitise, strip_invalid, collapse_spaces.
  intros [Hallowed Hin]%list_elem_of_filter.
  unfold is_allowed in Hallowed.
  apply orb_true_iff in Hallowed as [[?|?%N.eqb_eq]%orb_true_iff|Hs]; [by left|by right; left|].
  right; right. by eapply collapse_go_space.
Qed.

Lemma candidate_0 (base sep : jsstring) : candidate base sep 0 = base.
Proof. unfold candidate, suffix_of. simpl. by rewrite app_nil_r. Qed.

Lemma suffix_of_succ (sep : jsstring) (k : N) :
  suffix_of sep (k + 1) = sep ++ decimal (k + 1).
Proof. unfold suffix_of. case_decide; [lia|done]. Qed.

Lemma candidate_inj (base sep : jsstring) (j k : N) :
  candidate base sep j = candidate base sep k → j = k.
Proof.
  unfold candidate, suffix_of. intros H. apply app_inv_head in H.
  repeat case_decide; subst; try done.
  - symmetry in H. apply app_eq_nil in H as [_ H]. by destruct (decimal_nonempty k).
  - apply app_eq_nil in H as [_ H]. by destruct (decimal_nonempty j).
  - apply app_inv_head in H. by apply decimal_inj.
Qed.

(** ** The loop of generateUniqueId *)

Lemma getElementById_true (reg : registry) (s : jsstring) :
  getElementById reg s = true ↔ s ≠ [] ∧ s ∈ reg.
Proof.
  unfold getElementById. destruct s as [|c s].
  - split; [done|]. by intros [? _].
  - rewrite bool_decide_eq_true. split; [by intros ?|by intros [_ ?]].
Qed.

Lemma getElementById_false (reg : registry) (s : jsstring) :
  getElementById reg s = false ↔ s = [] ∨ s ∉ reg.
Proof.
  unfold getElementById. destruct s as [|c s].
  - split; [by left|done].
  - rewrite bool_decide_eq_false. split; [by right|by intros [?|?]].
Qed.

Section loop.
Variables (reg : registry) (base sep : jsstring).

Lemma probe_Some (fuel : nat) (k : N) (r : jsstring) :
  probe fuel reg base sep (suffix_of sep k) (k + 1) = Some r →
  ∃ j : N, r = candidate base sep (k + j)
    ∧ getElementById reg r = false
    ∧ (∀ i, i < j → getElementById reg (candidate base sep (k + i)) = true)
    ∧ (N.to_nat j < fuel)%nat.
Proof.
  revert k. induction fuel as [|fuel IH]; intros k; simpl; [done|].
  fold (candidate base sep k).
  destruct (getElementById reg (candidate base sep k)) eqn:Hk.
  - rewrite <-suffix_of_succ. intros H. apply IH in H as (j & -> & Hf & Hlt & Hj).
    exists (j + 1). replace (k + (j + 1)) with (k + 1 + j) by lia.
    split_and!; [done|done| |lia].
    intros i Hi. destruct (decide (i = 0)) as [->|Hne].
    + by rewrite N.add_0_r.
    + replace (k + i) with (k + 1 + (i - 1)) by lia. apply Hlt. lia.
  - intros [= <-]. exists 0. rewrite N.add_0_r.
    split_and!; [done|done| |lia]. intros i Hi. lia.
Qed.

Lemma probe_None (fuel : nat) (k : N) :
  probe fuel reg base sep (suffix_of sep k) (k + 1) = None →
  ∀ i, (N.to_nat i < fuel)%nat →
       getElementById reg (candidate base sep (k + i)) = true.
Proof.
  revert k. induction fuel as [|fuel IH]; intros k; simpl; [intros _ i; lia|].
  fold (candidate base sep k).
  destruct (getElementById reg (candidate base sep k)) eqn:Hk; [|done].
  rewrite <-suffix_of_succ. intros H i Hi.
  destruct (decide (i = 0)) as [->|Hne]; [by rewrite N.add_0_r|].
  replace (k + i) with (k + 1 + (i - 1)) by lia. apply (IH _ H). lia.
Qed.

(** No more candidates can be taken than the registry has entries. *)
Lemma taken_bound (n : nat) :
  (∀ i, (N.to_nat i < n)%nat → getElementById reg (candidate base sep i) = true) →
  (n ≤ size reg)%nat.
Proof.
  intros Htaken.
  set (l := (λ i, candidate base sep (N.of_nat i)) <$> seq 0 n).
  assert (NoDup l) as Hnd.
  { apply NoDup_fmap_2; [|apply NoDup_seq].
    intros i j Hij. apply candidate_inj in Hij. lia. }
  assert (list_to_set l ⊆ reg) as Hsub.
  { intros s Hs. apply elem_of_list_to_set, list_elem_of_fmap in Hs as (i & -> & Hi).
    apply elem_of_seq in Hi.
    apply (getElementById_true reg), Htaken. lia. }
  apply subseteq_size in Hsub. rewrite size_list_to_set in Hsub by done.
  unfold l in Hsub. by rewrite length_fmap, length_seq in Hsub.
Qed.

Lemma probe_total (fuel : nat) :
  (size reg < fuel)%nat → is_Some (probe fuel reg base sep [] 1).
Proof.
  intros Hfuel.
  destruct (probe fuel reg base sep [] 1) as [r|] eqn:H; [by eexists|].
  assert (fuel ≤ size reg)%nat; [|lia].
  apply taken_bound. intros i Hi.
  by apply (probe_None fuel 0 H) in Hi.
Qed.
End loop.

(** [generateUniqueId] returns, and what it returns is the first candidate
    that [getElementById] does not find. *)
Lemma generateUniqueId_first_free (fmt : idFormat) (reg : registry) (txt : jsstring) :
  ∃ k : N,
    generateUniqueId fmt reg txt
      = Some (candidate (baseId fmt (sanitise txt)) (spaceReplacement fmt) k)
    ∧ getElementById reg
        (candidate (baseId fmt (sanitise txt)) (spaceReplacement fmt) k) = false
    ∧ ∀ i, i < k →
        getElementById reg
          (candidate (baseId fmt (sanitise txt)) (spaceReplacement fmt) i) = true.
Proof.
  unfold generateUniqueId.
  destruct (probe_total reg (baseId fmt (sanitise txt)) (spaceReplacement fmt)
              (S (size reg))) as [r Hr]; [lia|].
  rewrite Hr.
  apply (probe_Some _ _ _ _ 0) in Hr as (j & -> & Hfree & Htaken & _).
  exists j. by rewrite N.add_0_l in *.
Qed.

(** ** The pass over the headings *)

Lemma assign_total (fmt : idFormat) (reg : registry) (h : heading) :
  is_Some (assign fmt reg h).
Proof.
  unfold assign. destruct (element_id h); [by eexists|].
  destruct (generateUniqueId_first_free fmt reg (text h)) as (k & -> & _).
  by eexists.
Qed.

Lemma attr_loop_total (fmt : idFormat) (others : registry) (done todo : list heading) :
  is_Some (attr_loop fmt others done todo).
Proof.
  revert done. induction todo as [|h todo IH]; intros done; simpl; [by eexists|].
  destruct (assign_total fmt (document_ids others (done ++ h :: todo)) h) as [v ->].
  simpl. apply IH.
Qed.

Lemma attr_loop_spec (fmt : idFormat) (others : registry)
    (done todo final : list heading) :
  attr_loop fmt others done todo = Some final →
  length final = (length done + length todo)%nat
  ∧ take (length done) final = done
  ∧ ∀ j h, todo !! j = Some h →
      ∃ v, final !! (length done + j)%nat = Some (set_id v h)
        ∧ assign fmt (document_ids others
                        (take (length done + j) final ++ drop j todo)) h = Some v.
Proof.
  revert done. induction todo as [|h todo IH]; intros done; simpl.
  - intros [= <-]. rewrite Nat.add_0_r, firstn_all. split_and!; [done|done|].
    intros j h Hj. by rewrite lookup_nil in Hj.
  - destruct (assign fmt (document_ids others (done ++ h :: todo)) h) as [v|] eqn:Hv;
      [|done]. simpl. intros H. apply IH in H as (Hlen & Htake & Hall).
    rewrite length_app in Hlen, Htake, Hall. simpl in *.
    assert (take (length done) final = done) as Hdone.
    { apply (f_equal (take (length done))) in Htake.
      rewrite take_take, take_app_length in Htake.
      by replace (length done `min` (length done + 1))%nat with (length done)
        in Htake by lia. }
    split_and!; [lia|done|].
    intros [|j] g Hj; simplify_eq/=.
    + exists v. rewrite Nat.add_0_r, Hdone. split; [|done].
      assert (final !! length done = (done ++ [set_id v g]) !! length done) as ->.
      { rewrite <-Htake. rewrite lookup_take_lt by lia. done. }
      by rewrite lookup_app_r, Nat.sub_diag by lia.
    + destruct (Hall j g Hj) as (w & Hw & Ha). exists w.
      by replace (length done + S j)%nat with (length done + 1 + j)%nat by lia.
Qed.

(** The pass returns, keeps the number, the texts and the selector matches
    of the headings, and gives heading [j] the value of line 116 computed
    against the registry of that moment. *)
Lemma attr_loop_run (fmt : idFormat) (others : registry) (hs : list heading) :
  ∃ final, attr_loop fmt others [] hs = Some final
    ∧ length final = length hs
    ∧ ∀ j h, hs !! j = Some h →
        ∃ v, final !! j = Some (set_id v h)
          ∧ assign fmt (registry_at others hs final j) h = Some v.
Proof.
  destruct (attr_loop_total fmt others [] hs) as [final H].
  exists final. split; [done|].
  apply attr_loop_spec in H as (Hlen & _ & Hall). by split.
Qed.

Lemma elem_of_document_ids (others : registry) (hs : list heading) (s : jsstring) :
  s ∈ document_ids others hs ↔ s ∈ others ∨ ∃ h, h ∈ hs ∧ element_id h = Some s.
Proof.
  unfold document_ids. rewrite elem_of_union, elem_of_list_to_set, list_elem_of_omap.
  done.
Qed.

Lemma element_id_nonempty (h : heading) (s : jsstring) :
  element_id h = Some s → s ≠ [] ∧ id_attr h = Some s.
Proof. unfold element_id. destruct (id_attr h) as [[|c r]|]; naive_solver. Qed.

Lemma element_id_set_id (v : jsstring) (h : heading) :
  element_id (set_id v h) = if decide (v = []) then None else Some v.
Proof. unfold element_id, set_id. simpl. by destruct v. Qed.

Lemma assign_has_id (fmt : idFormat) (reg : registry) (h : heading) (s : jsstring) :
  element_id h = Some s → assign fmt reg h = Some s ∧ set_id s h = h.
Proof.
  intros H. unfold assign. rewrite H. split; [done|].
  apply element_id_nonempty in H as [_ H]. destruct h; simpl in *. by subst.
Qed.

Lemma assign_generated (fmt : idFormat) (reg : registry) (h : heading) (v : jsstring) :
  element_id h = None → assign fmt reg h = Some v →
  getElementById reg v = false
  ∧ ∃ k : N, v = candidate (baseId fmt (sanitise (text h))) (spaceReplacement fmt) k
      ∧ ∀ i, i < k →
          getElementById reg
            (candidate (baseId fmt (sanitise (text h))) (spaceReplacement fmt) i) = true.
Proof.
  intros Hid. unfold assign. rewrite Hid.
  destruct (generateUniqueId_first_free fmt reg (text h)) as (k & -> & Hfree & Htaken).
  intros [= <-]. eauto.
Qed.

Section run.
Variables (fmt : idFormat) (others : registry) (hs final : list heading).
Hypothesis Hrun : attr_loop fmt others [] hs = Some final.

Lemma run_lookup (j : nat) (h : heading) :
  hs !! j = Some h →
  ∃ v, final !! j = Some (set_id v h)
    ∧ assign fmt (registry_at others hs final j) h = Some v.
Proof. apply attr_loop_spec in Hrun as (_ & _ & Hall). apply Hall. Qed.

Lemma run_length : length final = length hs.
Proof. by apply attr_loop_spec in Hrun as (? & _ & _). Qed.

(** A heading that has an id is left as it is. *)
Lemma run_kept (j : nat) (h : heading) :
  hs !! j = Some h → has_id h → final !! j = Some h.
Proof.
  intros Hj [s Hs]. destruct (run_lookup j h Hj) as (v & -> & Hv).
  destruct (assign_has_id fmt (registry_at others hs final j) h s Hs) as [Ha Hset].
  rewrite Ha in Hv. injection Hv as <-. by rewrite Hset.
Qed.

(** The registry only grows: every id of the document at the start can
    be found at every later moment. *)
Lemma initial_in_registry_at (j : nat) (s : jsstring) :
  s ∈ document_ids others hs → s ∈ registry_at others hs final j.
Proof.
  unfold registry_at. rewrite !elem_of_document_ids.
  intros [?|(h & Hh & Hs)]; [by left|right].
  exists h. split; [|done].
  apply list_elem_of_lookup in Hh as [i Hi].
  rewrite elem_of_app. destruct (decide (i < j)%nat) as [Hlt|Hge].
  - left. apply list_elem_of_lookup. exists i.
    rewrite lookup_take_lt by done. apply run_kept; [done|by eexists].
  - right. apply list_elem_of_lookup. exists (i - j)%nat.
    rewrite lookup_drop. by replace (j + (i - j))%nat with i by lia.
Qed.

(** An id given to an earlier heading can be found, unless it is empty. *)
Lemma earlier_in_registry_at (i j : nat) (f : heading) (s : jsstring) :
  (i < j)%nat → final !! i = Some f → element_id f = Some s →
  s ∈ registry_at others hs final j.
Proof.
  intros Hlt Hi Hs. unfold registry_at. rewrite elem_of_document_ids. right.
  exists f. split; [|done]. rewrite elem_of_app. left.
  apply list_elem_of_lookup. exists i. by rewrite lookup_take_lt.
Qed.

Lemma generated_fresh (j : nat) (h : heading) (v : jsstring) :
  hs !! j = Some h → ¬ has_id h → final !! j = Some (set_id v h) →
  getElementById (registry_at others hs final j) v = false.
Proof.
  intros Hj Hid Hf. destruct (run_lookup j h Hj) as (w & Hw & Ha).
  rewrite Hf in Hw. assert (w = v) as -> by (by injection Hw).
  apply assign_generated in Ha as [? _]; [done|].
  apply eq_None_not_Some. exact Hid.
Qed.

(** A generated id that is not empty differs from the id of every other
    heading and from every id the document had at the start. *)
Lemma generated_unique (i j : nat) (h f : heading) (v : jsstring) :
  hs !! i = Some h → ¬ has_id h → final !! i = Some (set_id v h) → v ≠ [] →
  (v ∉ document_ids others hs)
  ∧ (i ≠ j → final !! j = Some f → id_attr f ≠ Some v).
Proof.
  intros Hi Hid Hfi Hne.
  assert (v ∉ registry_at others hs final i) as Hfresh.
  { apply generated_fresh in Hfi; [|done..].
    apply getElementById_false in Hfi as [?|?]; done. }
  split; [by intros ?%(initial_in_registry_at i)|].
  intros Hij Hfj Heq.
  assert (element_id f = Some v) as Hf.
  { unfold element_id. rewrite Heq. by destruct v. }
  destruct (decide (j < i)%nat) as [Hlt|Hge].
  { by apply Hfresh, (earlier_in_registry_at j i f v). }
  assert (is_Some (hs !! j)) as [g Hg].
  { apply lookup_lt_is_Some. rewrite <-run_length. by eapply lookup_lt_Some. }
  destruct (decide (has_id g)) as [Hgid|Hgid].
  - rewrite (run_kept j g Hg Hgid) in Hfj. simplify_eq.
    apply Hfresh, initial_in_registry_at, elem_of_document_ids. right.
    exists f. split; [|done]. by eapply list_elem_of_lookup_2.
  - destruct (run_lookup j g Hg) as (w & Hw & _). rewrite Hfj in Hw.
    simplify_eq. simpl in Heq. simplify_eq.
    apply (generated_fresh j g v Hg Hgid) in Hfj.
    apply getElementById_false in Hfj as [?|Hnot]; [done|].
    apply Hnot, (earlier_in_registry_at i j (set_id v h) v); [lia|done|].
    rewrite element_id_set_id. by case_decide.
Qed.
End run.

(** ** The tree *)

Lemma get_app (t : node) (p q : path) :
  get t (p ++ q) = get t p ≫= λ n, get n q.
Proof.
  revert t. induction p as [|i p IH]; intros t; simpl; [done|].
  destruct (children t !! i) as [c|]; simpl; [apply IH|done].
Qed.

(** Appending a child does not move any element. *)
Lemma get_append_child_valid (t : node) (p q : path) (c : node) :
  is_Some (get t q) → is_Some (get (append_child t p c) q).
Proof.
  revert t q. induction p as [|i p IH]; intros [tg cs] [|j q]; simpl;
    try by eexists.
  - destruct (cs !! j) as [x|] eqn:Hx; simpl; [|by intros [? ?]].
    by rewrite (lookup_app_l_Some _ _ _ _ Hx).
  - rewrite list_lookup_alter. destruct (decide (i = j)) as [->|Hne].
    + destruct (cs !! j) as [x|]; simpl; [apply IH|by intros [? ?]].
    + done.
Qed.

(** The element that receives the child keeps its tag and its children. *)
Lemma get_append_child_same (t : node) (p : path) (c n : node) :
  get t p = Some n →
  get (append_child t p c) p = Some (Node (tag_of n) (children n ++ [c])).
Proof.
  revert t. induction p as [|i p IH]; intros [tg cs]; simpl.
  - by intros [= <-].
  - rewrite list_lookup_alter_eq.
    destruct (cs !! i) as [x|]; simpl; [apply IH|done].
Qed.

(** The position of the child that was appended. *)
Lemma get_append_child_new (t : node) (p : path) (c n : node) :
  get t p = Some n →
  get (append_child t p c) (p ++ [length (children n)]) = Some c.
Proof.
  intros H. rewrite get_app, (get_append_child_same _ _ _ _ H). simpl.
  by rewrite lookup_app_r, Nat.sub_diag by lia.
Qed.

Lemma join_elements_alter (f : node → node) (i : nat) (cs : list node)
    (x : node) (e : list tag) :
  cs !! i = Some x → elements (f x) ≡ₚ elements x ++ e →
  mjoin (elements <$> alter f i cs) ≡ₚ mjoin (elements <$> cs) ++ e.
Proof.
  revert i. induction cs as [|y cs IH]; intros [|i] Hx He; simplify_eq/=.
  - rewrite He. by rewrite <-!(assoc_L (++)), (comm (++) e).
  - rewrite (IH i) by done. by rewrite (assoc_L (++)).
Qed.

(** Appending a child adds the elements of the child and nothing else. *)
Lemma elements_append_child (t : node) (p : path) (c : node) :
  is_Some (get t p) →
  elements (append_child t p c) ≡ₚ elements t ++ elements c.
Proof.
  revert t. induction p as [|i p IH]; intros [tg cs]; simpl.
  - intros _. rewrite fmap_app, join_app. simpl. by rewrite app_nil_r.
  - destruct (cs !! i) as [x|] eqn:Hx; simpl; [|by intros [? ?]].
    intros Hv. f_equiv. by apply join_elements_alter with (x := x), IH.
Qed.

Lemma count_items_append_child (t : node) (p : path) (c : node) :
  is_Some (get t p) →
  count_items (append_child t p c) = (count_items t + count_items c)%nat.
Proof.
  intros H. unfold count_items.
  by rewrite (elements_append_child t p c H), filter_app, length_app.
Qed.

Lemma count_lists_append_child (t : node) (p : path) (c : node) :
  is_Some (get t p) →
  count_lists (append_child t p c) = (count_lists t + count_lists c)%nat.
Proof.
  intros H. unfold count_lists.
  by rewrite (elements_append_child t p c H), filter_app, length_app.
Qed.

Lemma anchors_append_child (t : node) (p : path) (c : node) :
  is_Some (get t p) →
  anchors (append_child t p c) ≡ₚ anchors t ++ anchors c.
Proof.
  intros H. unfold anchors.
  by rewrite (elements_append_child t p c H), omap_app.
Qed.

(** What [.children("li:last")] finds. *)
Lemma last_li_None (cs : list node) :
  last_li cs = None ↔ ∀ j m, cs !! j = Some m → is_li m = false.
Proof.
  induction cs as [|c cs IH]; simpl.
  - split; [|done]. intros _ j m Hm. by rewrite lookup_nil in Hm.
  - destruct (last_li cs) as [k|] eqn:Hk.
    + split; [done|]. intros H.
      assert (Some k = None); [|done]. apply IH. intros j m Hm. by apply (H (S j)).
    + destruct (is_li c) eqn:Hc.
      * split; [done|]. intros H. by rewrite (H 0%nat c) in Hc.
      * split; [|done]. intros _ [|j] m Hm; simplify_eq/=; [done|].
        by apply (proj1 IH eq_refl j).
Qed.

Lemma last_li_Some (cs : list node) (i : nat) :
  last_li cs = Some i ↔
  (∃ n, cs !! i = Some n ∧ is_li n = true)
  ∧ ∀ j m, (i < j)%nat → cs !! j = Some m → is_li m = false.
Proof.
  revert i. induction cs as [|c cs IH]; intros i; simpl.
  - split; [done|]. by intros [(n & Hn & _) _].
  - destruct (last_li cs) as [k|] eqn:Hk.
    + destruct (proj1 (IH k) eq_refl) as [(n' & Hn' & Hli') Hlast'].
      split.
      * intros [= <-]. split; [by exists n'|].
        intros [|j] m Hj Hm; [lia|]. apply (Hlast' j); [lia|done].
      * intros [(n & Hn & Hli) Hlast]. f_equal.
        destruct i as [|i].
        -- rewrite (Hlast (S k) n') in Hli'; [done|lia|done].
        -- f_equal. simpl in Hn. destruct (decide (k = i)) as [|Hne]; [done|].
           destruct (decide (k < i)%nat).
           ++ rewrite (Hlast' i n) in Hli; [done|done|done].
           ++ rewrite (Hlast (S k) n') in Hli'; [done|lia|done].
    + assert (Hnone := proj1 (last_li_None cs) Hk).
      destruct (is_li c) eqn:Hc.
      * split.
        -- intros [= <-]. split; [by exists c|].
           intros [|j] m Hj Hm; [lia|]. by apply (Hnone j).
        -- intros [(n & Hn & Hli) _]. destruct i as [|i]; [done|].
           simpl in Hn. by rewrite (Hnone i n) in Hli.
      * split; [done|]. intros [(n & Hn & Hli) _].
        destruct i as [|i]; simplify_eq/=; [by rewrite Hc in Hli|].
        by rewrite (Hnone i n) in Hli.
Qed.

(** ** The stack *)

Lemma last_drop_lt {A} (l : list A) (n : nat) :
  (n < length l)%nat → last (drop n l) = last l.
Proof.
  intros H. rewrite !last_lookup, lookup_drop, length_drop. f_equal. lia.
Qed.

Lemma delete_count_lt (c l : option nat) (len : nat) :
  (1 ≤ len)%nat → (delete_count c l len < len)%nat.
Proof. unfold delete_count. destruct c, l; lia. Qed.

Lemma wf_init (root : node) : wf (init root).
Proof. split; simpl; [done|]. apply Forall_singleton. by eexists. Qed.

Lemma wf_nonempty (b : builder) : wf b → (1 ≤ length (stack b))%nat.
Proof. intros [H _]. destruct (stack b); [done|simpl; lia]. Qed.

Lemma wf_head (b : builder) :
  wf b → ∃ top n, head (stack b) = Some top ∧ get (dom b) top = Some n.
Proof.
  intros [Hlast Hvalid]. destruct (stack b) as [|top rest]; [done|].
  apply Forall_cons in Hvalid as [[n Hn] _]. by exists top, n.
Qed.

(** Lines 123-138 never fail on a well-formed builder; they keep it
    well-formed, change the height of the stack by at most one upwards and
    add at most one empty list to the tree. *)
Lemma adjust_wf (b : builder) (level : option nat) :
  wf b →
  ∃ d s, adjust b level = Some (d, s)
    ∧ wf {| dom := d; stack := s; currentLevel := level |}
    ∧ (length s ≤ S (length (stack b)))%nat
    ∧ ∃ e, elements d ≡ₚ elements (dom b) ++ e ∧ (e = [] ∨ e = [TList]).
Proof.
  intros Hwf. assert (Hne := wf_nonempty b Hwf).
  destruct (wf_head b Hwf) as (top & topnode & Htop & Hget).
  destruct Hwf as [Hlast Hvalid]. unfold adjust.
  destruct (js_gt level (currentLevel b)).
  - rewrite Htop. simpl. rewrite Hget. simpl.
    destruct (last_li (children topnode)) as [i|] eqn:Hi.
    + apply last_li_Some in Hi as [(pnode & Hp & _) _].
      assert (get (dom b) (top ++ [i]) = Some pnode) as Hpget.
      { rewrite get_app, Hget. simpl. by rewrite Hp. }
      rewrite Hpget. simpl. eexists _, _. split; [done|]. split_and!.
      * split; simpl.
        -- rewrite last_cons, Hlast. done.
        -- apply Forall_cons. split.
           ++ rewrite (get_append_child_new _ _ _ _ Hpget). by eexists.
           ++ eapply Forall_impl; [exact Hvalid|]. intros p Hpv.
              by apply get_append_child_valid.
      * simpl. lia.
      * exists [TList]. split; [|by right].
        apply elements_append_child. by eexists.
    + eexists _, _. split; [done|]. split_and!; [done|lia|].
      exists []. split; [by rewrite app_nil_r|by left].
  - eexists _, _. split; [done|]. split_and!.
    + split; simpl.
      * rewrite last_drop_lt; [done|]. by apply delete_count_lt.
      * by apply Forall_drop.
    + rewrite length_drop. lia.
    + exists []. split; [by rewrite app_nil_r|by left].
Qed.

(** One heading: the body of [.each] never fails on a well-formed builder. *)
Lemma each_step_wf (b : builder) (elem : heading) :
  wf b →
  ∃ b', each_step b elem = Some b'
    ∧ wf b'
    ∧ (1 ≤ length (stack b') ≤ S (length (stack b)))%nat
    ∧ currentLevel b' = level_of elem
    ∧ count_items (dom b') = S (count_items (dom b))
    ∧ anchors (dom b') ≡ₚ anchors (dom b) ++ [link elem].
Proof.
  intros Hwf.
  destruct (adjust_wf b (level_of elem) Hwf) as (d & s & Ha & Hwf1 & Hlen & e & He & Hcase).
  destruct (wf_head _ Hwf1) as (top & n & Htop & Hget). simpl in Htop, Hget.
  unfold each_step. rewrite Ha. simpl. rewrite Htop. simpl.
  eexists. split; [done|].
  assert (is_Some (get d top)) as Hv by (by eexists).
  split_and!; cbn [dom stack currentLevel].
  - destruct Hwf1 as [Hlast Hvalid]. split; simpl in *; [done|].
    eapply Forall_impl; [exact Hvalid|]. intros p Hp.
    by apply get_append_child_valid.
  - apply wf_nonempty in Hwf1. simpl in Hwf1. lia.
  - lia.
  - done.
  - rewrite (count_items_append_child d top _ Hv). unfold count_items.
    rewrite He, filter_app, length_app.
    destruct Hcase as [-> | ->]; simpl; lia.
  - rewrite (anchors_append_child d top _ Hv). unfold anchors at 1.
    rewrite He, omap_app. destruct Hcase as [-> | ->]; simpl;
      by rewrite app_nil_r.
Qed.

Lemma each_loop_wf (b : builder) (elems : list heading) :
  wf b →
  ∃ b', each_loop b elems = Some b'
    ∧ wf b'
    ∧ count_items (dom b') = (count_items (dom b) + length elems)%nat
    ∧ anchors (dom b') ≡ₚ anchors (dom b) ++ (link <$> elems).
Proof.
  revert b. induction elems as [|elem elems IH]; intros b Hwf; simpl.
  - exists b. split_and!; [done|done|lia|by rewrite app_nil_r].
  - destruct (each_step_wf b elem Hwf) as (b1 & -> & Hwf1 & _ & _ & Hcount & Hanch).
    simpl. destruct (IH b1 Hwf1) as (b' & -> & Hwf' & Hcount' & Hanch').
    exists b'. split_and!; [done|done|lia|].
    rewrite Hanch', Hanch. by rewrite <-(assoc_L (++)).
Qed.

Lemma toc_total (fmt : idFormat) (others : registry) (root : node)
    (hs : list heading) :
  ∃ final b, toc fmt others root hs = Some (final, b)
    ∧ attr_loop fmt others [] hs = Some final
    ∧ each_loop (init root) final = Some b.
Proof.
  destruct (attr_loop_total fmt others [] hs) as [final Hf].
  destruct (each_loop_wf (init root) final (wf_init root)) as (b & Hb & _).
  exists final, b. unfold toc. rewrite Hf. simpl. rewrite Hb. done.
Qed.

(** ** Texts without a word character *)

Lemma collapse_go_all_space (s : jsstring) :
  Forall (λ c, is_space c = true) s → collapse_go true s = [].
Proof. induction 1 as [|c s Hc _ IH]; simpl; [done|]. by rewrite Hc. Qed.

(** White space alone is collapsed to one space, which the filter keeps. *)
Lemma sanitise_all_space (txt : jsstring) :
  txt ≠ [] → Forall (λ c, is_space c = true) txt → sanitise txt = [32].
Proof.
  intros Hne Hall. unfold sanitise. destruct txt as [|c txt]; [done|].
  simpl. apply Forall_cons in Hall as [Hc Hall].
  unfold collapse_spaces. simpl. rewrite Hc.
  by rewrite (collapse_go_all_space txt Hall).
Qed.

(** When nothing is left of the text, the id is empty whatever the registry. *)
Lemma empty_sanitised_text (fmt : idFormat) (reg : registry) (txt : jsstring) :
  sanitise txt = [] → generateUniqueId fmt reg txt = Some [].
Proof.
  intros H. unfold generateUniqueId. rewrite H.
  assert (baseId fmt [] = []) as -> by (by destruct fmt).
  done.
Qed.

(** * The claims *)

(** ** Identifier generation *)

(** C1.  The placeholder of line 83 does not survive line 87: the question
    mark is not in [[\w\-\s]], so for a heading with empty text the
    sanitised text, the base and the generated id are all empty, in every
    format and against every registry.  White space alone is not empty
    text for line 82: three spaces give the base "_", "-" or the empty
    string, never "?". *)
Theorem empty_text_has_empty_id :
  sanitise [] = []
  ∧ (∀ fmt, baseId fmt (sanitise []) = [])
  ∧ (∀ fmt reg, generateUniqueId fmt reg [] = Some [])
  ∧ generateUniqueId Underscore ∅ (js "   ") = Some (js "_")
  ∧ generateUniqueId Kebab ∅ (js "   ") = Some (js "-")
  ∧ generateUniqueId Camel ∅ (js "   ") = Some [].
Proof.
  assert (sanitise [] = []) as Hs by (by vm_compute).
  split_and!.
  - done.
  - intros fmt. rewrite Hs. by destruct fmt.
  - intros fmt reg. by apply empty_sanitised_text.
  - by vm_compute.
  - by vm_compute.
  - by vm_compute.
Qed.

(** C2.  Two headings with empty text and no id: the first gets the empty
    id, [getElementById] does not find the empty id afterwards, and the
    second heading gets the empty id again instead of the candidate "_1".
    The same happens in the camel format to two headings whose text is one
    space, where the sanitised text is not empty but the base is. *)
Theorem empty_id_is_never_taken :
  attr_loop Underscore ∅ [] [plain "" 0; plain "" 0]
    = Some [set_id [] (plain "" 0); set_id [] (plain "" 0)]
  ∧ getElementById
      (registry_at ∅ [plain "" 0; plain "" 0]
         [set_id [] (plain "" 0); set_id [] (plain "" 0)] 1) [] = false
  ∧ candidate (baseId Underscore (sanitise [])) (spaceReplacement Underscore) 1
      = js "_1"
  ∧ sanitise (js " ") = js " "
  ∧ attr_loop Camel ∅ [] [plain " " 0; plain " " 0]
      = Some [set_id [] (plain " " 0); set_id [] (plain " " 0)].
Proof. split_and!; by vm_compute. Qed.

(** C6.  "Hello World" against an empty registry, in the three formats;
    a second text shows the case mapping of the camel format on every
    word. *)
Theorem hello_world_formats :
  generateUniqueId Underscore ∅ (js "Hello World") = Some (js "Hello_World")
  ∧ generateUniqueId Kebab ∅ (js "Hello World") = Some (js "hello-world")
  ∧ generateUniqueId Camel ∅ (js "Hello World") = Some (js "helloWorld")
  ∧ baseId Underscore (sanitise (js "Hello World")) = js "Hello_World"
  ∧ baseId Kebab (sanitise (js "Hello World")) = js "hello-world"
  ∧ baseId Camel (sanitise (js "Hello World")) = js "helloWorld"
  ∧ toCamelCase (js "hELLO wORLD aGAIN") = js "helloWorldAgain".
Proof. split_and!; by vm_compute. Qed.

(** C5, as stated, fails: two headings that both carry the id "foo" get
    "foo" back, so two returned identifiers are equal. *)
Lemma existing_ids_may_repeat :
  ∃ final,
    attr_loop Underscore ∅ [] [with_id "A" "foo" 0; with_id "B" "foo" 0] = Some final
    ∧ ¬ NoDup (id_attr <$> final).
Proof.
  eexists. split; [by vm_compute|].
  intros H. apply NoDup_cons in H as [H _]. apply H. by left.
Qed.

(** C5, amended.  The pass returns, and every generated id that is not
    empty is new to the document (it is none of the ids the document had
    at the start, those of the headings included) and differs from the id
    every other heading ends up with.  Ids that come from an existing
    attribute are returned as they are and may repeat. *)
Theorem generated_ids_unique (fmt : idFormat) (others : registry) (hs : list heading) :
  ∃ final, attr_loop fmt others [] hs = Some final
    ∧ ∀ i h v, hs !! i = Some h → ¬ has_id h →
        final !! i = Some (set_id v h) → v ≠ [] →
        (v ∉ document_ids others hs)
        ∧ ∀ j f, i ≠ j → final !! j = Some f → id_attr f ≠ Some v.
Proof.
  destruct (attr_loop_total fmt others [] hs) as [final Hrun].
  exists final. split; [done|]. intros i h v Hi Hid Hf Hne.
  split.
  - by apply (generated_unique fmt others hs final Hrun i i h h v).
  - intros j f Hij Hj.
    by apply (generated_unique fmt others hs final Hrun i j h f v).
Qed.

Lemma generated_ids_unique_witness :
  ∃ final,
    attr_loop Underscore ∅ []
      [with_id "A" "foo" 0; plain "foo" 0; plain "foo" 1] = Some final
    ∧ final !! 1%nat = Some (set_id (js "foo_1") (plain "foo" 0))
    ∧ (js "foo_1" ∉ document_ids ∅
         [with_id "A" "foo" 0; plain "foo" 0; plain "foo" 1])
    ∧ ∀ j f, 1%nat ≠ j → final !! j = Some f → id_attr f ≠ Some (js "foo_1").
Proof.
  destruct (generated_ids_unique Underscore ∅
              [with_id "A" "foo" 0; plain "foo" 0; plain "foo" 1])
    as (final & Hrun & H).
  exists final. split; [exact Hrun|].
  assert (final = [with_id "A" "foo" 0; set_id (js "foo_1") (plain "foo" 0);
                   set_id (js "foo_2") (plain "foo" 1)]) as ->.
  { vm_compute in Hrun. by injection Hrun. }
  split; [reflexivity|].
  apply (H 1%nat (plain "foo" 0)).
  - reflexivity.
  - intros [x Hx]. discriminate Hx.
  - reflexivity.
  - discriminate.
Defined.

(** C7.  A heading that carries a non-empty id gets it back whatever the
    registry holds; the pass leaves the heading, and with it the ids of the
    document, as they were; and every generated id, before or after it in
    the document, is a candidate different from that id: a numbered one
    when its base is that id. *)
Theorem existing_id_is_kept (fmt : idFormat) (others : registry)
    (hs : list heading) (i : nat) (h : heading) (v : jsstring) :
  hs !! i = Some h → element_id h = Some v →
  (∀ reg, assign fmt reg h = Some v)
  ∧ ∃ final, attr_loop fmt others [] hs = Some final
      ∧ final !! i = Some h
      ∧ registry_at others hs final (S i) = registry_at others hs final i
      ∧ ∀ j g, hs !! j = Some g → ¬ has_id g →
          ∃ k : N,
            final !! j
              = Some (set_id (candidate (baseId fmt (sanitise (text g)))
                                (spaceReplacement fmt) k) g)
            ∧ candidate (baseId fmt (sanitise (text g))) (spaceReplacement fmt) k ≠ v
            ∧ (baseId fmt (sanitise (text g)) = v → 1 ≤ k).
Proof.
  intros Hi Hv. split.
  { intros reg. by apply assign_has_id. }
  destruct (attr_loop_total fmt others [] hs) as [final Hrun].
  exists final. split; [done|].
  assert (final !! i = Some h) as Hkept.
  { apply (run_kept fmt others hs final Hrun); [done|by eexists]. }
  split; [done|]. split.
  { unfold registry_at. f_equal.
    rewrite (take_S_r _ _ _ Hkept), (drop_S _ _ _ Hi).
    by rewrite <-(assoc_L (++)). }
  intros j g Hj Hg.
  destruct (run_lookup fmt others hs final Hrun j g Hj) as (w & Hw & Ha).
  apply assign_generated in Ha as (Hfree & k & -> & _);
    [|by apply eq_None_not_Some].
  exists k. split; [done|].
  assert (getElementById (registry_at others hs final j) v = true) as Htaken.
  { apply getElementById_true. split; [by apply element_id_nonempty in Hv as [? _]|].
    apply (initial_in_registry_at fmt others hs final Hrun), elem_of_document_ids.
    right. exists h. split; [by eapply list_elem_of_lookup_2|done]. }
  assert (candidate (baseId fmt (sanitise (text g))) (spaceReplacement fmt) k ≠ v)
    as Hne.
  { intros Heq. rewrite Heq in Hfree. by rewrite Hfree in Htaken. }
  split; [done|]. intros Hbase.
  destruct (decide (k = 0)) as [->|]; [|lia].
  by rewrite candidate_0 in Hne.
Qed.

Lemma existing_id_is_kept_witness :
  (∀ reg, assign Underscore reg (with_id "Title" "foo" 0) = Some (js "foo"))
  ∧ ∃ final,
      attr_loop Underscore ∅ [] [plain "foo" 0; with_id "Title" "foo" 0; plain "foo" 1]
        = Some final
      ∧ final !! 1%nat = Some (with_id "Title" "foo" 0)
      ∧ final !! 0%nat = Some (set_id (js "foo_1") (plain "foo" 0))
      ∧ final !! 2%nat = Some (set_id (js "foo_2") (plain "foo" 1)).
Proof.
  destruct (existing_id_is_kept Underscore ∅
              [plain "foo" 0; with_id "Title" "foo" 0; plain "foo" 1]
              1%nat (with_id "Title" "foo" 0) (js "foo") eq_refl eq_refl)
    as (Ha & final & Hrun & Hkept & _ & _).
  split; [exact Ha|]. exists final. split; [exact Hrun|]. split; [exact Hkept|].
  vm_compute in Hrun. injection Hrun as <-. split; reflexivity.
Defined.

(** ** The outline *)

Lemma delete_count_min (c L len : nat) :
  (L ≤ c)%nat → (1 ≤ len)%nat →
  delete_count (Some c) (Some L) len = ((c - L) `min` (len - 1))%nat.
Proof. intros ??. unfold delete_count. lia. Qed.

(** C3.  A heading whose level [L] is not deeper than the current level
    removes exactly min(currentLevel - L, h - 1) entries from the top of a
    stack of height [h] >= 1 and nothing else; the bottom entry of the
    stack stays, and the item is then appended to the list on top of what
    is left. *)
Theorem ascend_pops_min (b : builder) (elem : heading) (L c : nat) :
  level_of elem = Some L → currentLevel b = Some c →
  (L ≤ c)%nat → (1 ≤ length (stack b))%nat →
  let n := ((c - L) `min` (length (stack b) - 1))%nat in
  adjust b (Some L) = Some (dom b, drop n (stack b))
  ∧ length (drop n (stack b)) = (length (stack b) - n)%nat
  ∧ last (drop n (stack b)) = last (stack b)
  ∧ ∃ top, head (drop n (stack b)) = Some top
      ∧ each_step b elem
          = Some {| dom := append_child (dom b) top (item elem);
                    stack := drop n (stack b);
                    currentLevel := Some L |}.
Proof.
  intros Hlevel Hcur HL Hh n.
  assert (adjust b (Some L) = Some (dom b, drop n (stack b))) as Ha.
  { unfold adjust. rewrite Hcur. cbn [js_gt].
    rewrite bool_decide_eq_false_2 by lia. by rewrite delete_count_min. }
  split_and!; [done|apply length_drop|apply last_drop_lt; lia|].
  destruct (drop n (stack b)) as [|top rest] eqn:Hdrop.
  { apply (f_equal length) in Hdrop. rewrite length_drop in Hdrop. simpl in Hdrop. lia. }
  exists top. split; [done|].
  unfold each_step. by rewrite Hlevel, Ha.
Qed.

Lemma ascend_pops_min_witness :
  ∃ b, each_loop (init (Node TList []))
         [set_id (js "A") (plain "A" 0); set_id (js "B") (plain "B" 1);
          set_id (js "C") (plain "C" 2)] = Some b
    ∧ stack b = [[0; 1; 0; 1]; [0; 1]; []]%nat
    ∧ adjust b (Some 0%nat) = Some (dom b, [[]])
    ∧ each_step b (set_id (js "D") (plain "D" 0))
        = Some {| dom := append_child (dom b) [] (item (set_id (js "D") (plain "D" 0)));
                  stack := [[]];
                  currentLevel := Some 0%nat |}.
Proof.
  eexists. split; [vm_compute; reflexivity|]. split; [reflexivity|].
  lazymatch goal with
  | |- adjust ?b _ = _ ∧ _ =>
      destruct (ascend_pops_min b (set_id (js "D") (plain "D" 0)) 0 2
                  eq_refl eq_refl)
        as (Ha & _ & _ & top & Htop & Hstep)
  end.
  - lia.
  - simpl. lia.
  - split; [exact Ha|]. simpl in Htop. injection Htop as <-. exact Hstep.
Defined.

(** C4.  A heading deeper than the current level.  When the list on top of
    the stack has an item, a new list is appended to the last of its items
    and pushed; it is the one new list of the tree and holds the item of
    the heading and nothing else.  When the list on top has no item, the
    stack stays as it is, no list is created and the item is appended to
    the list on top. *)
Theorem descend_nests_under_last_item :
  (∀ (b : builder) (elem : heading) (L c : nat) (top : path) (rest : list path)
     (topnode pnode : node) (i : nat),
     level_of elem = Some L → currentLevel b = Some c → (c < L)%nat →
     stack b = top :: rest → get (dom b) top = Some topnode →
     children topnode !! i = Some pnode → is_li pnode = true →
     (∀ j m, (i < j)%nat → children topnode !! j = Some m → is_li m = false) →
     let parentItem := top ++ [i] in
     let newlist := parentItem ++ [length (children pnode)] in
     ∃ b', each_step b elem = Some b'
       ∧ dom b' = append_child (append_child (dom b) parentItem (Node TList []))
                    newlist (item elem)
       ∧ stack b' = newlist :: top :: rest
       ∧ currentLevel b' = Some L
       ∧ get (dom b') newlist = Some (Node TList [item elem])
       ∧ count_lists (dom b') = S (count_lists (dom b)))
  ∧ (∀ (b : builder) (elem : heading) (L c : nat) (top : path) (rest : list path)
       (topnode : node),
       level_of elem = Some L → currentLevel b = Some c → (c < L)%nat →
       stack b = top :: rest → get (dom b) top = Some topnode →
       (∀ j m, children topnode !! j = Some m → is_li m = false) →
       each_step b elem
         = Some {| dom := append_child (dom b) top (item elem);
                   stack := top :: rest;
                   currentLevel := Some L |}
       ∧ get (append_child (dom b) top (item elem)) top
           = Some (Node (tag_of topnode) (children topnode ++ [item elem]))
       ∧ count_lists (append_child (dom b) top (item elem)) = count_lists (dom b)).
Proof.
  split.
  - intros b elem L c top rest topnode pnode i Hlevel Hcur HL Hstack Hget Hp Hli Hlast
      parentItem newlist.
    assert (last_li (children topnode) = Some i) as Hi.
    { apply last_li_Some. split; [by exists pnode|done]. }
    assert (get (dom b) parentItem = Some pnode) as Hpget.
    { unfold parentItem. rewrite get_app, Hget. simpl. by rewrite Hp. }
    assert (get (append_child (dom b) parentItem (Node TList [])) newlist
            = Some (Node TList [])) as Hnew.
    { by apply get_append_child_new. }
    eexists. split.
    { unfold each_step, adjust. rewrite Hlevel, Hcur. simpl.
      rewrite bool_decide_eq_true_2 by lia. rewrite Hstack. simpl.
      rewrite Hget. simpl. rewrite Hi. fold parentItem. rewrite Hpget. simpl.
      done. }
    cbn [dom stack currentLevel]. fold newlist. split_and!; try done.
    + by rewrite (get_append_child_same _ _ _ _ Hnew).
    + rewrite count_lists_append_child by (by eexists).
      rewrite count_lists_append_child by (by eexists).
      unfold count_lists. simpl. lia.
  - intros b elem L c top rest topnode Hlevel Hcur HL Hstack Hget Hnone.
    assert (last_li (children topnode) = None) as Hi by (by apply last_li_None).
    split_and!.
    + unfold each_step, adjust. rewrite Hlevel, Hcur. simpl.
      rewrite bool_decide_eq_true_2 by lia. rewrite Hstack. simpl.
      rewrite Hget. simpl. by rewrite Hi.
    + by apply get_append_child_same.
    + rewrite count_lists_append_child by (by eexists).
      unfold count_lists. simpl. lia.
Qed.

Lemma descend_nests_under_last_item_witness :
  let a := set_id (js "A") (plain "A" 0) in
  let s := set_id (js "S") (plain "S" 2) in
  each_step {| dom := Node TList [item a]; stack := [[]];
               currentLevel := Some 0%nat |} s
    = Some {| dom := Node TList
                       [Node TLi [Node (TA (js "A") (js "#A")) [];
                                  Node TList [item s]]];
              stack := [[0; 1]; []]%nat;
              currentLevel := Some 2%nat |}
  ∧ each_step (init (Node TList [])) s
      = Some {| dom := Node TList [item s]; stack := [[]];
                currentLevel := Some 2%nat |}.
Proof.
  intros a s. split.
  - destruct (proj1 descend_nests_under_last_item
                {| dom := Node TList [item a]; stack := [[]];
                   currentLevel := Some 0%nat |}
                s 2%nat 0%nat [] [] (Node TList [item a]) (item a) 0%nat
                eq_refl eq_refl) as (b' & Hstep & Hdom & Hstack & Hcur & _).
    + lia.
    + reflexivity.
    + reflexivity.
    + reflexivity.
    + reflexivity.
    + intros [|j] m Hj Hm; [lia|discriminate Hm].
    + rewrite Hstep. destruct b' as [d st cl]. simpl in Hdom, Hstack, Hcur.
      rewrite Hdom, Hstack, Hcur. reflexivity.
  - destruct (proj2 descend_nests_under_last_item (init (Node TList []))
                s 2%nat 0%nat [] [] (Node TList []) eq_refl eq_refl)
      as (Hstep & _ & _).
    + lia.
    + reflexivity.
    + reflexivity.
    + intros j m Hm. discriminate Hm.
    + exact Hstep.
Defined.

Lemma each_loop_app (b : builder) (l1 l2 : list heading) :
  each_loop b (l1 ++ l2) = each_loop b l1 ≫= λ b1, each_loop b1 l2.
Proof.
  revert b. induction l1 as [|e l1 IH]; intros b; simpl; [done|].
  destruct (each_step b e) as [b1|]; simpl; [apply IH|done].
Qed.

(** C8.  After any sequence of headings, of whatever levels, the stack has
    an entry and the root is at its bottom; the next heading is processed
    without failure, leaves at least the root on the stack and makes the
    stack at most one entry higher. *)
Theorem stack_never_empty (root : node) (elems : list heading) (elem : heading) :
  ∃ b b', each_loop (init root) elems = Some b
    ∧ each_step b elem = Some b'
    ∧ each_loop (init root) (elems ++ [elem]) = Some b'
    ∧ (1 ≤ length (stack b))%nat ∧ last (stack b) = Some []
    ∧ (1 ≤ length (stack b'))%nat ∧ last (stack b') = Some []
    ∧ (length (stack b') ≤ length (stack b) + 1)%nat.
Proof.
  destruct (each_loop_wf (init root) elems (wf_init root)) as (b & Hb & Hwf & _).
  destruct (each_step_wf b elem Hwf) as (b' & Hb' & Hwf' & Hlen & _).
  exists b, b'. split_and!; try done.
  - rewrite each_loop_app, Hb. simpl. by rewrite Hb'.
  - by apply wf_nonempty.
  - by destruct Hwf.
  - lia.
  - by destruct Hwf'.
  - lia.
Qed.

(** ** The whole run *)

Lemma same_input_element_id (h1 h2 : heading) :
  same_input h1 h2 → element_id h1 = element_id h2.
Proof. intros (_ & H & _). unfold element_id. by rewrite H. Qed.

Lemma same_input_document_ids (others : registry) (l1 l2 : list heading) :
  Forall2 same_input l1 l2 → document_ids others l1 = document_ids others l2.
Proof.
  intros H. unfold document_ids. f_equal. f_equal.
  induction H as [|h1 h2 l1 l2 Hh _ IH]; csimpl; [done|].
  by rewrite (same_input_element_id h1 h2 Hh), IH.
Qed.

Lemma same_input_assign (fmt : idFormat) (reg : registry) (h1 h2 : heading) :
  same_input h1 h2 → assign fmt reg h1 = assign fmt reg h2.
Proof.
  intros H. unfold assign. rewrite (same_input_element_id h1 h2 H).
  destruct H as (-> & _). done.
Qed.

Lemma same_input_set_id (v : jsstring) (h1 h2 : heading) :
  same_input h1 h2 → same_input (set_id v h1) (set_id v h2).
Proof. intros (Ht & _ & Hl). by split_and!. Qed.

Lemma attr_loop_same_input (fmt : idFormat) (others : registry)
    (done1 done2 todo1 todo2 : list heading) :
  Forall2 same_input done1 done2 → Forall2 same_input todo1 todo2 →
  option_Forall2 (Forall2 same_input)
    (attr_loop fmt others done1 todo1) (attr_loop fmt others done2 todo2).
Proof.
  intros Hdone Htodo. revert done1 done2 Hdone.
  induction Htodo as [|h1 h2 todo1 todo2 Hh Htodo IH]; intros done1 done2 Hdone; simpl.
  - by constructor.
  - rewrite (same_input_document_ids others (done1 ++ h1 :: todo1)
               (done2 ++ h2 :: todo2))
      by (apply Forall2_app; [done|by constructor]).
    rewrite (same_input_assign fmt _ h1 h2 Hh).
    destruct (assign fmt _ h2) as [v|]; simpl; [|constructor].
    apply IH, Forall2_app; [done|].
    constructor; [by apply same_input_set_id|constructor].
Qed.

Lemma each_step_same_input (b : builder) (e1 e2 : heading) :
  same_input e1 e2 → each_step b e1 = each_step b e2.
Proof.
  intros (Ht & Hi & Hl). unfold each_step, item. by rewrite Ht, Hi, Hl.
Qed.

Lemma each_loop_same_input (b : builder) (l1 l2 : list heading) :
  Forall2 same_input l1 l2 → each_loop b l1 = each_loop b l2.
Proof.
  intros H. revert b. induction H as [|e1 e2 l1 l2 He _ IH]; intros b; simpl; [done|].
  rewrite (each_step_same_input b e1 e2 He).
  destruct (each_step b e2); simpl; [apply IH|done].
Qed.

Lemma same_input_of_maps (hs1 hs2 : list heading) :
  text <$> hs1 = text <$> hs2 → id_attr <$> hs1 = id_attr <$> hs2 →
  level_of <$> hs1 = level_of <$> hs2 → Forall2 same_input hs1 hs2.
Proof.
  revert hs2. induction hs1 as [|h1 hs1 IH]; intros [|h2 hs2] Ht Hi Hl;
    simplify_eq/=; constructor; [done|by apply IH].
Qed.

(** C9.  Two runs on heading sequences with the same texts, the same id
    attributes and the same levels, in the same format, from the same
    root and with the same ids in the rest of the document (none, in
    particular), both return, give every heading the same id and build the
    same tree, hence trees of the same shape. *)
Theorem toc_deterministic (fmt : idFormat) (others : registry) (root : node)
    (hs1 hs2 : list heading) :
  text <$> hs1 = text <$> hs2 → id_attr <$> hs1 = id_attr <$> hs2 →
  level_of <$> hs1 = level_of <$> hs2 →
  ∃ final1 final2 b,
    toc fmt others root hs1 = Some (final1, b)
    ∧ toc fmt others root hs2 = Some (final2, b)
    ∧ id_attr <$> final1 = id_attr <$> final2.
Proof.
  intros Ht Hi Hl. assert (Hsame := same_input_of_maps hs1 hs2 Ht Hi Hl).
  destruct (toc_total fmt others root hs1) as (final1 & b & Htoc1 & Hrun1 & Hb1).
  destruct (toc_total fmt others root hs2) as (final2 & b2 & Htoc2 & Hrun2 & Hb2).
  assert (Forall2 same_input final1 final2) as Hfinal.
  { assert (H := attr_loop_same_input fmt others [] [] hs1 hs2
                   (List.Forall2_nil same_input) Hsame).
    rewrite Hrun1, Hrun2 in H. by inversion H. }
  rewrite (each_loop_same_input _ final1 final2 Hfinal), Hb2 in Hb1.
  injection Hb1 as ->.
  exists final1, final2, b. split_and!; [done|done|].
  clear -Hfinal. induction Hfinal as [|f1 f2 l1 l2 (_ & Hf & _) _ IH]; csimpl; [done|].
  by rewrite Hf, IH.
Qed.

Lemma toc_deterministic_witness :
  let h1 := {| text := js "Intro"; id_attr := None; is_ := [true; true; false] |} in
  let h2 := {| text := js "Intro"; id_attr := None; is_ := [true; false; false] |} in
  ∃ final1 final2 b,
    toc Kebab ∅ (Node TList []) [h1; plain "Intro" 1] = Some (final1, b)
    ∧ toc Kebab ∅ (Node TList []) [h2; plain "Intro" 1] = Some (final2, b)
    ∧ id_attr <$> final1 = id_attr <$> final2.
Proof.
  intros h1 h2.
  exact (toc_deterministic Kebab ∅ (Node TList []) [h1; plain "Intro" 1]
           [h2; plain "Intro" 1] eq_refl eq_refl eq_refl).
Defined.

(** C10.  The run returns and appends exactly one item per heading: the
    tree has as many items more than the root had as there are headings,
    and its links are those of the root and, for every heading, the text
    of the heading with "#" and the id the heading ended up with.  From an
    empty root list the number of items is the number of headings. *)
Theorem one_item_per_heading :
  (∀ fmt others root hs,
     ∃ final b, toc fmt others root hs = Some (final, b)
       ∧ length final = length hs
       ∧ (∀ j h, hs !! j = Some h → ∃ v, final !! j = Some (set_id v h))
       ∧ count_items (dom b) = (count_items root + length hs)%nat
       ∧ anchors (dom b) ≡ₚ anchors root ++ (link <$> final))
  ∧ (∀ fmt others hs,
       ∃ final b, toc fmt others (Node TList []) hs = Some (final, b)
         ∧ count_items (dom b) = length hs
         ∧ anchors (dom b) ≡ₚ link <$> final).
Proof.
  assert (∀ fmt others root hs,
     ∃ final b, toc fmt others root hs = Some (final, b)
       ∧ length final = length hs
       ∧ (∀ j h, hs !! j = Some h → ∃ v, final !! j = Some (set_id v h))
       ∧ count_items (dom b) = (count_items root + length hs)%nat
       ∧ anchors (dom b) ≡ₚ anchors root ++ (link <$> final)) as Hgen.
  { intros fmt others root hs.
    destruct (toc_total fmt others root hs) as (final & b & Htoc & Hrun & Hb).
    destruct (each_loop_wf (init root) final (wf_init root))
      as (b' & Hb' & _ & Hcount & Hanch).
    rewrite Hb in Hb'. injection Hb' as <-.
    assert (Hlen := run_length fmt others hs final Hrun).
    exists final, b. split_and!; [done|done| |by rewrite Hcount, Hlen|done].
    intros j h Hj.
    destruct (run_lookup fmt others hs final Hrun j h Hj) as (v & Hv & _).
    by exists v. }
  split; [exact Hgen|].
  intros fmt others hs.
  destruct (Hgen fmt others (Node TList []) hs) as (final & b & Htoc & _ & _ & Hc & Ha).
  exists final, b. by split_and!.
Qed.

Lemma one_item_per_heading_witness :
  ∃ final b,
    toc Underscore ∅ (Node TList []) [plain "A" 0; plain "B" 2; plain "C" 1]
      = Some (final, b)
    ∧ count_items (dom b) = 3%nat.
Proof.
  destruct (proj2 one_item_per_heading Underscore ∅
              [plain "A" 0; plain "B" 2; plain "C" 1])
    as (final & b & Htoc & Hcount & _).
  exists final, b. split; [exact Htoc|exact Hcount].
Defined.

(** ** Three runs *)

(** Levels 0, 2, 2: the second and the third heading are siblings in one
    list below the first; no list stands for the level that was skipped. *)
Example skipped_level :
  snd <$> toc Underscore ∅ (Node TList [])
            [plain "One" 0; plain "Two" 2; plain "Three" 2]
  = Some {| dom := Node TList
                     [Node TLi
                        [Node (TA (js "One") (js "#One")) [];
                         Node TList
                           [Node TLi [Node (TA (js "Two") (js "#Two")) []];
                            Node TLi [Node (TA (js "Three") (js "#Three")) []]]]];
            stack := [[0; 1]; []]%nat;
            currentLevel := Some 2%nat |}.
Proof. by vm_compute. Qed.

(** Levels 0, 1, 2, 0: the fourth heading is back in the root list. *)
Example back_to_the_root :
  snd <$> toc Underscore ∅ (Node TList [])
            [plain "A" 0; plain "B" 1; plain "C" 2; plain "D" 0]
  = Some {| dom := Node TList
                     [Node TLi
                        [Node (TA (js "A") (js "#A")) [];
                         Node TList
                           [Node TLi
                              [Node (TA (js "B") (js "#B")) [];
                               Node TList
                                 [Node TLi [Node (TA (js "C") (js "#C")) []]]]]];
                      Node TLi [Node (TA (js "D") (js "#D")) []]];
            stack := [[]];
            currentLevel := Some 0%nat |}.
Proof. by vm_compute. Qed.

(** "Section" keeps its case in the underscore format, so an element with
    the id "section" is no collision; one with the id "Section" is. *)
Example section_collision :
  generateUniqueId Underscore {[ js "section" ]} (js "Section") = Some (js "Section")
  ∧ generateUniqueId Underscore {[ js "Section" ]} (js "Section")
      = Some (js "Section_1")
  ∧ generateUniqueId Underscore {[ js "Section"; js "Section_1" ]} (js "Section")
      = Some (js "Section_2").
Proof. split_and!; by vm_compute. Qed.

(** * Beyond the claims *)

(** ** What a generated id looks like *)

Lemma pretty_N_char_digit (x : N) : is_digit (N_of_ascii (pretty_N_char x)) = true.
Proof. unfold pretty_N_char. by repeat case_match. Qed.

Lemma pretty_N_go_digits (x : N) (s : string) :
  Forall (λ c, is_digit c = true) (js s) →
  Forall (λ c, is_digit c = true) (js (pretty_N_go x s)).
Proof.
  revert s. induction (N.lt_wf_0 x) as [x _ IH]; intros s Hs.
  destruct (decide (x = 0)) as [->|Hx]; [by rewrite pretty_N_go_0|].
  rewrite pretty_N_go_step by lia. apply IH; [apply N.div_lt; lia|].
  unfold js. simpl. apply Forall_cons. split; [apply pretty_N_char_digit|done].
Qed.

Lemma decimal_digits (n : N) : Forall (λ c, is_digit c = true) (decimal n).
Proof.
  unfold decimal, pretty, pretty_N. case_decide.
  - by repeat constructor.
  - apply pretty_N_go_digits. constructor.
Qed.

Ltac char_props :=
  unfold valid_id_char, is_word, is_space, is_upper, is_digit, lower_char, upper_char in *;
  repeat match goal with
         | |- context [if ?b then _ else _] => destruct b eqn:?
         | H : context [if ?b then _ else _] |- _ => destruct b eqn:?
         end;
  repeat first
    [ rewrite orb_true_iff in *
    | rewrite orb_false_iff in *
    | rewrite andb_true_iff in *
    | rewrite andb_false_iff in *
    | rewrite N.leb_le in *
    | rewrite N.leb_gt in *
    | rewrite N.eqb_eq in *
    | rewrite N.eqb_neq in * ].


Lemma lower_char_valid (c : N) :
  valid_id_char c = true → valid_id_char (lower_char c) = true.
Proof. intros H. char_props; lia. Qed.

Lemma upper_char_valid (c : N) :
  valid_id_char c = true → valid_id_char (upper_char c) = true.
Proof. intros H. char_props; lia. Qed.

Lemma lower_char_not_upper (c : N) : is_upper (lower_char c) = false.
Proof. apply not_true_is_false. intros H. char_props; lia. Qed.

Lemma digit_valid (c : N) :
  is_digit c = true → valid_id_char c = true ∧ is_upper c = false.
Proof.
  intros H. split; [|apply not_true_is_false; intros Hu]; char_props; lia.
Qed.

(** The words [split] returns are made of the characters of the string
    other than the separator, and every such character is in a word. *)
Lemma split_nonempty (d : N) (s : jsstring) : split d s ≠ [].
Proof.
  destruct s as [|c s]; simpl; [done|].
  destruct (c =? d); [done|]. by destruct (split d s).
Qed.

Lemma split_elem (d : N) (s w : jsstring) (c : N) :
  w ∈ split d s → c ∈ w → c ∈ s ∧ c ≠ d.
Proof.
  revert w. induction s as [|a s IH]; intros w; simpl.
  - intros ->%list_elem_of_singleton ?%elem_of_nil. done.
  - destruct (a =? d) eqn:Ha.
    + intros [->|Hw]%elem_of_cons Hc; [by apply elem_of_nil in Hc|].
      destruct (IH w Hw Hc) as [? ?]. split; [by right|done].
    + apply N.eqb_neq in Ha.
      destruct (split d s) as [|w0 ws] eqn:Hsplit; [by destruct (split_nonempty d s)|].
      intros [->|Hw]%elem_of_cons Hc.
      * apply elem_of_cons in Hc as [->|Hc]; [split; [by left|done]|].
        destruct (IH w0 (list_elem_of_here _ _) Hc) as [? ?]. split; [by right|done].
      * destruct (IH w (list_elem_of_further _ _ _ Hw) Hc) as [? ?].
        split; [by right|done].
Qed.


Lemma toCamelCase_elem (str : jsstring) (c : N) :
  c ∈ toCamelCase str →
  ∃ d, d ∈ str ∧ d ≠ 32 ∧ (c = lower_char d ∨ c = upper_char d).
Proof.
  unfold toCamelCase. intros (l & Hc & Hl)%list_elem_of_join.
  apply elem_of_lookup_imap in Hl as (i & w & -> & Hw).
  apply list_elem_of_lookup_2 in Hw.
  assert (∀ d, d ∈ w → d ∈ str ∧ d ≠ 32) as Hsplit.
  { intros d Hd. by apply (split_elem 32 str w d). }
  case_decide.
  - apply list_elem_of_fmap in Hc as (d & -> & Hd).
    exists d. destruct (Hsplit d Hd). by split_and!; [..|left].
  - apply elem_of_app in Hc as [Hc|Hc];
      apply list_elem_of_fmap in Hc as (d & -> & Hd).
    + apply (subseteq_take 1 w) in Hd.
      exists d. destruct (Hsplit d Hd). by split_and!; [..|right].
    + apply (subseteq_drop 1 w) in Hd.
      exists d. destruct (Hsplit d Hd). by split_and!; [..|left].
Qed.




Lemma sanitise_valid_or_space (txt : jsstring) (c : N) :
  c ∈ sanitise txt → is_space c = false → valid_id_char c = true.
Proof.
  intros [Hw|[->| ->]]%sanitise_chars Hs; [|done|done].
  unfold valid_id_char. by rewrite Hw.
Qed.

Lemma replace_spaces_elem (sep s : jsstring) (c : N) :
  c ∈ replace_spaces sep s ↔
  ∃ d, d ∈ s ∧ (is_space d = true ∧ c ∈ sep ∨ is_space d = false ∧ c = d).
Proof.
  unfold replace_spaces. rewrite list_elem_of_bind. split.
  - intros (d & Hc & Hd). exists d. split; [done|].
    destruct (is_space d); [by left|]. right. by apply list_elem_of_singleton in Hc.
  - intros (d & Hd & [[Hs Hc]|[Hs ->]]); exists d; rewrite Hs; split; try done.
    by apply list_elem_of_singleton.
Qed.

Lemma baseId_chars (fmt : idFormat) (txt : jsstring) (c : N) :
  c ∈ baseId fmt (sanitise txt) →
  valid_id_char c = true ∧ (fmt = Kebab → is_upper c = false).
Proof.
  destruct fmt; simpl.
  - intros (d & Hd & [[_ Hc]|[Hs ->]])%replace_spaces_elem.
    + apply list_elem_of_singleton in Hc as ->. done.
    + split; [by eapply sanitise_valid_or_space|done].
  - unfold toLowerCase. intros (e & -> & He)%list_elem_of_fmap.
    split; [|intros _; apply lower_char_not_upper].
    apply lower_char_valid.
    apply replace_spaces_elem in He as (d & Hd & [[_ Hc]|[Hs ->]]).
    + apply list_elem_of_singleton in Hc as ->. done.
    + by eapply sanitise_valid_or_space.
  - intros (d & Hd & Hne & Hc)%toCamelCase_elem. split; [|done].
    assert (valid_id_char d = true) as Hv.
    { apply sanitise_chars in Hd as [Hw|[->| ->]]; [|done|done].
      unfold valid_id_char. by rewrite Hw. }
    destruct Hc as [-> | ->]; [by apply lower_char_valid|by apply upper_char_valid].
Qed.

Lemma suffix_chars (fmt : idFormat) (k c : N) :
  c ∈ suffix_of (spaceReplacement fmt) k →
  valid_id_char c = true ∧ is_upper c = false.
Proof.
  unfold suffix_of. case_decide; [by intros ?%elem_of_nil|].
  intros [Hc|Hc]%elem_of_app.
  - destruct fmt; simpl in Hc.
    + by apply list_elem_of_singleton in Hc as ->.
    + by apply list_elem_of_singleton in Hc as ->.
    + by apply elem_of_nil in Hc.
  - apply digit_valid. revert c Hc. apply Forall_forall, decimal_digits.
Qed.


(** X1.  The loop always ends; it returns the first of the candidates base,
    base + sep + 1, base + sep + 2, ... that [getElementById] does not
    find, and the number it stops at is at most the number of ids in the
    document. *)
Theorem generated_id_first_free (fmt : idFormat) (reg : registry) (txt : jsstring) :
  ∃ k : N,
    generateUniqueId fmt reg txt
      = Some (candidate (baseId fmt (sanitise txt)) (spaceReplacement fmt) k)
    ∧ (N.to_nat k ≤ size reg)%nat
    ∧ getElementById reg
        (candidate (baseId fmt (sanitise txt)) (spaceReplacement fmt) k) = false
    ∧ ∀ i, i < k →
        getElementById reg
          (candidate (baseId fmt (sanitise txt)) (spaceReplacement fmt) i) = true.
Proof.
  unfold generateUniqueId.
  destruct (probe_total reg (baseId fmt (sanitise txt)) (spaceReplacement fmt)
              (S (size reg))) as [r Hr]; [lia|].
  rewrite Hr.
  apply (probe_Some _ _ _ _ 0) in Hr as (j & -> & Hfree & Htaken & Hj).
  exists j. rewrite N.add_0_l in *. split_and!; [done|lia|done|].
  intros i Hi. specialize (Htaken i Hi). by rewrite N.add_0_l in Htaken.
Qed.

(** X2.  Whatever the text, the format and the registry, a generated id
    consists of ASCII letters, digits, underscores and hyphens only. *)
Theorem generated_id_chars (fmt : idFormat) (reg : registry) (txt : jsstring) :
  ∃ v, generateUniqueId fmt reg txt = Some v
    ∧ Forall (λ c, valid_id_char c = true) v.
Proof.
  destruct (generateUniqueId_first_free fmt reg txt) as (k & -> & _).
  eexists. split; [done|]. apply Forall_forall. intros c.
  unfold candidate. intros [Hc|Hc]%elem_of_app.
  - by apply baseId_chars in Hc as [? _].
  - by apply suffix_chars in Hc as [? _].
Qed.

(** X3.  An id generated in the kebab format has no upper-case letter. *)
Theorem kebab_id_lower_case (reg : registry) (txt : jsstring) :
  ∃ v, generateUniqueId Kebab reg txt = Some v
    ∧ Forall (λ c, is_upper c = false) v.
Proof.
  destruct (generateUniqueId_first_free Kebab reg txt) as (k & -> & _).
  eexists. split; [done|]. apply Forall_forall. intros c.
  unfold candidate. intros [Hc|Hc]%elem_of_app.
  - apply baseId_chars in Hc as [_ Hc]. by apply Hc.
  - by apply suffix_chars in Hc as [_ ?].
Qed.



(** ** Running the pass again *)

Lemma empty_base (fmt : idFormat) (reg : registry) (txt : jsstring) :
  baseId fmt (sanitise txt) = [] → generateUniqueId fmt reg txt = Some [].
Proof. intros H. unfold generateUniqueId. by rewrite H. Qed.

Lemma attr_loop_fixed (fmt : idFormat) (others : registry) (done todo : list heading) :
  (∀ f, f ∈ todo → ∃ v, (∀ reg, assign fmt reg f = Some v) ∧ set_id v f = f) →
  attr_loop fmt others done todo = Some (done ++ todo).
Proof.
  revert done. induction todo as [|f todo IH]; intros done Hall; simpl.
  - by rewrite app_nil_r.
  - destruct (Hall f (list_elem_of_here _ _)) as (v & Ha & Hset).
    rewrite Ha. simpl. rewrite Hset, IH.
    + by rewrite <-(assoc_L (++)).
    + intros g Hg. apply Hall. by right.
Qed.

Lemma run_fixed (fmt : idFormat) (others : registry) (hs final : list heading)
    (f : heading) :
  attr_loop fmt others [] hs = Some final → f ∈ final →
  ∃ v, (∀ reg, assign fmt reg f = Some v) ∧ set_id v f = f.
Proof.
  intros Hrun [j Hj]%list_elem_of_lookup.
  assert (is_Some (hs !! j)) as [h Hh].
  { apply lookup_lt_is_Some. rewrite <-(run_length fmt others hs final Hrun).
    by eapply lookup_lt_Some. }
  destruct (run_lookup fmt others hs final Hrun j h Hh) as (v & Hf & Ha).
  rewrite Hj in Hf. injection Hf as ->. exists v. split; [|done].
  intros reg. unfold assign at 1. rewrite element_id_set_id.
  case_decide as Hv; [|done]. subst v. simpl.
  destruct (element_id h) as [w|] eqn:Hw.
  { destruct (assign_has_id fmt (registry_at others hs final j) h w Hw) as [Ha' _].
    rewrite Ha' in Ha. injection Ha as ->.
    by apply element_id_nonempty in Hw as [? _]. }
  apply assign_generated in Ha as (_ & k & Hk & _); [|done].
  symmetry in Hk. unfold candidate in Hk. apply app_eq_nil in Hk as [Hb _].
  by apply empty_base.
Qed.

(** X5.  A second pass over the same headings in the same format changes
    no id, and a second run of the plugin from an equal root builds the
    same outline: two table-of-contents elements filled by one call
    (line 29) link to the same ids. *)
Theorem second_run_changes_nothing (fmt : idFormat) (others : registry)
    (root : node) (hs : list heading) :
  ∃ final b,
    toc fmt others root hs = Some (final, b)
    ∧ attr_loop fmt others [] final = Some final
    ∧ toc fmt others root final = Some (final, b).
Proof.
  destruct (toc_total fmt others root hs) as (final & b & Htoc & Hrun & Hb).
  exists final, b.
  assert (attr_loop fmt others [] final = Some final) as Hagain.
  { apply (attr_loop_fixed fmt others [] final). intros f Hf.
    by apply (run_fixed fmt others hs final f Hrun). }
  split_and!; [done|done|].
  unfold toc. rewrite Hagain. simpl. by rewrite Hb.
Qed.

(** ** Options and levels *)

Lemma thisOptions_lookup (data : options) (opts : option options) (k : key) :
  lookup_key k (thisOptions data opts)
    = match opts ≫= lookup_key k with
      | Some v => Some v
      | None =>
          match lookup_key k data with
          | Some (c :: s) => Some (c :: s)
          | _ => lookup_key k defaults
          end
      end.
Proof.
  unfold thisOptions. destruct opts as [o|]; simpl.
  - destruct k; simpl; unfold extend_key, or_undefined;
      repeat case_match; simplify_eq; done.
  - destruct k; simpl; unfold extend_key, or_undefined;
      repeat case_match; simplify_eq; done.
Qed.

Lemma thisOptions_defined (data : options) (opts : option options) (k : key) :
  is_Some (lookup_key k (thisOptions data opts)).
Proof.
  rewrite thisOptions_lookup. repeat case_match; try by eexists.
  all: destruct k; by eexists.
Qed.

(** X6.  The options in effect: a key given in the call wins, even with
    the empty string as its value; otherwise the data attribute wins
    unless it is empty; otherwise the default stands.  All three keys
    always have a value, so line 52 never splits [undefined]. *)
Theorem options_precedence (data : options) (opts : option options) (k : key) :
  lookup_key k (thisOptions data opts)
    = match opts ≫= lookup_key k with
      | Some v => Some v
      | None =>
          match lookup_key k data with
          | Some (c :: s) => Some (c :: s)
          | _ => lookup_key k defaults
          end
      end
  ∧ is_Some (lookup_key k (thisOptions data opts))
  ∧ is_Some (headingSelectors (thisOptions data opts)).
Proof.
  split_and!; [apply thisOptions_lookup|apply thisOptions_defined|].
  unfold headingSelectors. destruct (thisOptions_defined data opts Headings) as [h Hh].
  simpl in Hh. rewrite Hh. by eexists.
Qed.

Lemma join_with_cons (d : N) (w : jsstring) (ws : list jsstring) :
  ws ≠ [] → join_with d (w :: ws) = w ++ d :: join_with d ws.
Proof. by destruct ws. Qed.

(** Splitting at a separator loses nothing: the words joined with the
    separator give back the string, no word holds the separator, and
    there is one word more than there are separators. *)
Lemma split_join (d : N) (s : jsstring) :
  join_with d (split d s) = s
  ∧ Forall (λ w, d ∉ w) (split d s)
  ∧ length (split d s) = S (length (filter (λ c, c = d) s)).
Proof.
  induction s as [|c s (IHj & IHf & IHl)]; simpl.
  - split_and!; [done| |done]. apply Forall_singleton. by intros ?%elem_of_nil.
  - destruct (c =? d) eqn:Hc.
    + apply N.eqb_eq in Hc as ->. split_and!.
      * rewrite join_with_cons by apply split_nonempty. by rewrite IHj.
      * apply Forall_cons. split; [by intros ?%elem_of_nil|done].
      * rewrite filter_cons_True by done. simpl. by rewrite IHl.
    + apply N.eqb_neq in Hc.
      destruct (split d s) as [|w ws] eqn:Hsplit; [by destruct (split_nonempty d s)|].
      apply Forall_cons in IHf as [Hw Hws]. split_and!.
      * destruct ws as [|w' ws]; simpl in *; by rewrite <-IHj.
      * apply Forall_cons. split; [|done].
        intros [->|?]%elem_of_cons; done.
      * by rewrite filter_cons_False.
Qed.

(** X7.  Line 52 always yields selectors, at least one: they are the
    [headings] option in effect cut at its commas, so joined with commas
    they give that option back, none of them holds a comma, and there is
    one more of them than the option has commas. *)
Theorem heading_selectors_cut (data : options) (opts : option options) :
  ∃ h ws,
    opt_headings (thisOptions data opts) = Some h
    ∧ headingSelectors (thisOptions data opts) = Some ws
    ∧ join_with 44 ws = h
    ∧ Forall (λ w, 44 ∉ w) ws
    ∧ length ws = S (length (filter (λ c, c = 44) h)).
Proof.
  destruct (thisOptions_defined data opts Headings) as [h Hh].
  simpl in Hh. exists h, (split 44 h).
  destruct (split_join 44 h) as (Hj & Hf & Hl).
  split_and!; [done| |done|done|done].
  unfold headingSelectors. by rewrite Hh.
Qed.

Lemma head_omap_imap (k : nat) (l : list bool) :
  match head (omap id (imap (λ index (b : bool),
                               if b then Some (k + index)%nat else None) l)) with
  | Some n => ∃ i, n = (k + i)%nat ∧ l !! i = Some true
                ∧ ∀ j, (j < i)%nat → l !! j = Some false
  | None => ∀ j b, l !! j = Some b → b = false
  end.
Proof.
  revert k. induction l as [|b l IH]; intros k; simpl.
  - intros j b Hj. by rewrite lookup_nil in Hj.
  - assert (imap ((λ index (b : bool), if b then Some (k + index)%nat else None) ∘ S) l
            = imap (λ index (b : bool), if b then Some (S k + index)%nat else None) l)
      as ->.
    { apply imap_ext. intros i x _. simpl. destruct x; [f_equal; lia|done]. }
    specialize (IH (S k)).
    remember (imap (λ index (b : bool),
                      if b then Some (S k + index)%nat else None) l) as il.
    destruct b; simpl.
    + exists 0%nat. split_and!; [lia|done|]. intros j Hj. lia.
    + lazymatch goal with
      | |- match ?t with _ => _ end => change t with (head (omap id il))
      end.
      destruct (head (omap id il)) as [n|].
      * destruct IH as (i & -> & Hi & Hlt). exists (S i).
        split_and!; [lia|done|]. intros [|j] Hj; [done|]. apply Hlt. lia.
      * intros [|j] b Hj; simplify_eq/=; [done|]. by eapply IH.
Qed.

(** X8.  The level of a heading is the index of the first selector it
    matches, so it is below the number of selectors; it is [undefined]
    exactly when the heading matches none. *)
Theorem level_is_first_match (elem : heading) :
  match level_of elem with
  | Some i => is_ elem !! i = Some true
              ∧ (i < length (is_ elem))%nat
              ∧ ∀ j, (j < i)%nat → is_ elem !! j = Some false
  | None => ∀ j b, is_ elem !! j = Some b → b = false
  end.
Proof.
  unfold level_of. assert (H := head_omap_imap 0 (is_ elem)). simpl in H.
  destruct (head _) as [n|].
  - destruct H as (i & -> & Hi & Hlt). split_and!; [done| |done].
    by eapply lookup_lt_Some.
  - done.
Qed.

(** ** The height of the stack *)

Lemma adjust_length (b : builder) (c L : nat) (d : node) (st : list path) :
  currentLevel b = Some c → (1 ≤ length (stack b) ≤ S c)%nat →
  adjust b (Some L) = Some (d, st) → (length st ≤ S L)%nat.
Proof.
  intros Hc Hlen. unfold adjust. rewrite Hc. cbn [js_gt].
  case_bool_decide as HL.
  - destruct (head (stack b)) as [top|]; [|done]. simpl.
    destruct (get (dom b) top) as [topnode|]; [|done]. simpl.
    destruct (last_li (children topnode)).
    + destruct (get (dom b) (top ++ [n])); [|done]. simpl.
      intros [= <- <-]. simpl. lia.
    + intros [= <- <-]. lia.
  - intros [= <- <-]. rewrite length_drop. lia.
Qed.

Lemma each_loop_depth (b : builder) (elems : list heading) (c : nat) :
  wf b → currentLevel b = Some c → (length (stack b) ≤ S c)%nat →
  Forall (λ e, is_Some (level_of e)) elems →
  ∃ b' L, each_loop b elems = Some b'
    ∧ currentLevel b' = Some L
    ∧ (length (stack b') ≤ S L)%nat.
Proof.
  intros Hwf Hc Hlen Hall. revert b c Hwf Hc Hlen.
  induction Hall as [|e elems [L HL] _ IH]; intros b c Hwf Hc Hlen; simpl.
  - by exists b, c.
  - destruct (each_step_wf b e Hwf) as (b1 & Hstep & Hwf1 & _ & Hcur & _).
    rewrite Hstep. simpl.
    assert (length (stack b1) ≤ S L)%nat as Hlen1.
    { unfold each_step in Hstep. rewrite HL in Hstep.
      destruct (adjust b (Some L)) as [[d st]|] eqn:Ha; [|done]. simpl in Hstep.
      destruct (head st); [|done]. injection Hstep as <-. simpl.
      apply (adjust_length b c L d st Hc); [|done].
      split; [by apply wf_nonempty|done]. }
    rewrite HL in Hcur. by apply (IH b1 L).
Qed.

Lemma each_loop_last_level (b b' : builder) (elems : list heading) (elem : heading) :
  each_loop b (elems ++ [elem]) = Some b' → currentLevel b' = level_of elem.
Proof.
  rewrite each_loop_app. destruct (each_loop b elems) as [b1|]; [|done]. simpl.
  destruct (each_step b1 elem) as [b2|] eqn:Hstep; [|done]. simpl.
  intros [= <-]. unfold each_step in Hstep.
  destruct (adjust b1 (level_of elem)) as [[d st]|]; [|done]. simpl in Hstep.
  destruct (head st); [|done]. by injection Hstep as <-.
Qed.

(** X9.  When every heading has a level, a heading of level L is never
    nested deeper than L: after it, the stack holds at most L + 1 lists,
    the root included. *)
Theorem nesting_bounded_by_level (root : node) (elems : list heading) (elem : heading) :
  Forall (λ e, is_Some (level_of e)) (elems ++ [elem]) →
  ∃ b L, each_loop (init root) (elems ++ [elem]) = Some b
    ∧ level_of elem = Some L
    ∧ currentLevel b = Some L
    ∧ (length (stack b) ≤ S L)%nat.
Proof.
  intros Hall.
  destruct (each_loop_depth (init root) (elems ++ [elem]) 0 (wf_init root)
              eq_refl (le_n 1) Hall) as (b & L & Hloop & Hcur & Hlen).
  exists b, L. split_and!; [done| |done|done].
  by rewrite <-(each_loop_last_level _ _ _ _ Hloop).
Qed.

Lemma nesting_bounded_by_level_witness :
  ∃ b, each_loop (init (Node TList []))
         ([plain "A" 0; plain "B" 1; plain "C" 2; plain "D" 2] ++ [plain "E" 1])
       = Some b
    ∧ (length (stack b) ≤ 2)%nat.
Proof.
  destruct (nesting_bounded_by_level (Node TList [])
              [plain "A" 0; plain "B" 1; plain "C" 2; plain "D" 2] (plain "E" 1))
    as (b & L & Hloop & HL & _ & Hlen).
  - repeat (apply Forall_cons; split; [by eexists|]). apply Forall_nil_2.
  - exists b. split; [exact Hloop|]. injection HL as <-. exact Hlen.
Defined.

(** X10.  A heading that matches no selector has the level [undefined];
    neither it nor the heading after it pushes or removes a list, whatever
    their levels: both items go to the list that is on top. *)
Theorem undefined_level_keeps_stack (b : builder) (elem : heading)
    (top : path) (rest : list path) :
  stack b = top :: rest →
  level_of elem = None ∨ currentLevel b = None →
  each_step b elem
    = Some {| dom := append_child (dom b) top (item elem);
              stack := top :: rest;
              currentLevel := level_of elem |}.
Proof.
  intros Hstack Hundef. unfold each_step, adjust.
  assert (js_gt (level_of elem) (currentLevel b) = false) as ->.
  { destruct Hundef as [-> | ->]; [done|]. by destruct (level_of elem). }
  assert (delete_count (currentLevel b) (level_of elem) (length (stack b)) = 0%nat)
    as ->.
  { destruct Hundef as [-> | ->]; [|done]. by destruct (currentLevel b). }
  simpl. by rewrite Hstack.
Qed.

Lemma undefined_level_keeps_stack_witness :
  let stray := {| text := js "Aside"; id_attr := Some (js "Aside");
                  is_ := [false; false; false] |} in
  let b := {| dom := Node TList [item (set_id (js "A") (plain "A" 0))];
              stack := [[]]; currentLevel := Some 0%nat |} in
  each_step b stray
    = Some {| dom := Node TList [item (set_id (js "A") (plain "A" 0)); item stray];
              stack := [[]]; currentLevel := None |}
  ∧ each_step {| dom := Node TList [item (set_id (js "A") (plain "A" 0)); item stray];
                 stack := [[]]; currentLevel := None |}
              (set_id (js "B") (plain "B" 2))
    = Some {| dom := Node TList [item (set_id (js "A") (plain "A" 0)); item stray;
                                 item (set_id (js "B") (plain "B" 2))];
              stack := [[]]; currentLevel := Some 2%nat |}.
Proof.
  intros stray b. split.
  - exact (undefined_level_keeps_stack b stray [] [] eq_refl (or_introl eq_refl)).
  - exact (undefined_level_keeps_stack
             {| dom := Node TList [item (set_id (js "A") (plain "A" 0)); item stray];
                stack := [[]]; currentLevel := None |}
             (set_id (js "B") (plain "B" 2)) [] []
             eq_refl (or_intror eq_refl)).
Defined.

(** ** What appending does to the elements that are there *)

Lemma tag_of_append_child (t : node) (p : path) (c : node) :
  tag_of (append_child t p c) = tag_of t.
Proof. by destruct p, t. Qed.

Lemma fmap_tag_of_alter (f : node → node) (i : nat) (cs : list node) :
  (∀ x, tag_of (f x) = tag_of x) → tag_of <$> alter f i cs = tag_of <$> cs.
Proof.
  intros Hf. revert i. induction cs as [|x cs IH]; intros [|i]; csimpl; [done..| |].
  - by rewrite Hf.
  - by rewrite IH.
Qed.

(** An element stays where it is and keeps its tag; its children keep
    their tags and their order, and new ones come after them. *)
Lemma get_append_child_grows (t : node) (p q : path) (c n : node) :
  get t q = Some n →
  ∃ n', get (append_child t p c) q = Some n'
    ∧ tag_of n' = tag_of n
    ∧ tag_of <$> children n `prefix_of` tag_of <$> children n'.
Proof.
  revert t p. induction q as [|j q IH]; intros [tg cs] p; simpl.
  - intros [= <-]. destruct p as [|i p]; simpl.
    + eexists. split_and!; [done|done|]. cbn [children].
      rewrite fmap_app. by apply prefix_app_r.
    + eexists. split_and!; [done|done|]. cbn [children].
      rewrite fmap_tag_of_alter; [done|]. intros x. apply tag_of_append_child.
  - destruct (cs !! j) as [x|] eqn:Hx; simpl; [|done]. intros Hn.
    destruct p as [|i p]; simpl.
    + rewrite (lookup_app_l_Some _ _ _ _ Hx). simpl. by exists n.
    + rewrite list_lookup_alter. destruct (decide (i = j)) as [->|Hne].
      * rewrite Hx. simpl. by apply IH.
      * rewrite Hx. simpl. by exists n.
Qed.

Lemma adjust_grows (b : builder) (level : option nat) (d : node) (st : list path)
    (q : path) (n : node) :
  adjust b level = Some (d, st) → get (dom b) q = Some n →
  ∃ n', get d q = Some n'
    ∧ tag_of n' = tag_of n
    ∧ tag_of <$> children n `prefix_of` tag_of <$> children n'.
Proof.
  unfold adjust. intros Ha Hq.
  destruct (js_gt level (currentLevel b)).
  - destruct (head (stack b)) as [top|]; [|done]. simpl in Ha.
    destruct (get (dom b) top) as [topnode|]; [|done]. simpl in Ha.
    destruct (last_li (children topnode)) as [i|].
    + destruct (get (dom b) (top ++ [i])); [|done]. simpl in Ha.
      injection Ha as <- <-. by apply get_append_child_grows.
    + injection Ha as <- <-. by exists n.
  - injection Ha as <- <-. by exists n.
Qed.

Lemma each_step_grows (b b' : builder) (elem : heading) (q : path) (n : node) :
  each_step b elem = Some b' → get (dom b) q = Some n →
  ∃ n', get (dom b') q = Some n'
    ∧ tag_of n' = tag_of n
    ∧ tag_of <$> children n `prefix_of` tag_of <$> children n'.
Proof.
  unfold each_step. intros Hstep Hq.
  destruct (adjust b (level_of elem)) as [[d st]|] eqn:Ha; [|done]. simpl in Hstep.
  destruct (head st) as [top|]; [|done]. injection Hstep as <-. simpl.
  destruct (adjust_grows b _ d st q n Ha Hq) as (n1 & Hn1 & Htag1 & Hpre1).
  destruct (get_append_child_grows d top q (item elem) n1 Hn1)
    as (n2 & Hn2 & Htag2 & Hpre2).
  exists n2. split_and!; [done|congruence|by etrans].
Qed.

Lemma each_loop_grows (b b' : builder) (elems : list heading) (q : path) (n : node) :
  each_loop b elems = Some b' → get (dom b) q = Some n →
  ∃ n', get (dom b') q = Some n'
    ∧ tag_of n' = tag_of n
    ∧ tag_of <$> children n `prefix_of` tag_of <$> children n'.
Proof.
  revert b n. induction elems as [|e elems IH]; intros b n; simpl.
  - intros [= <-] Hq. by exists n.
  - destruct (each_step b e) as [b1|] eqn:Hstep; [|done]. simpl. intros Hloop Hq.
    destruct (each_step_grows b b1 e q n Hstep Hq) as (n1 & Hn1 & Htag1 & Hpre1).
    destruct (IH b1 n1 Hloop Hn1) as (n2 & Hn2 & Htag2 & Hpre2).
    exists n2. split_and!; [done|congruence|by etrans].
Qed.

(** X11.  The plugin only adds to the root list: every element the root
    held before the run is at the same position afterwards, with the same
    tag (for a link: the same text and target), and its children are the
    ones it had, in their order, followed by what was appended. *)
Theorem root_content_is_kept (fmt : idFormat) (others : registry) (root : node)
    (hs : list heading) (q : path) (n : node) :
  get root q = Some n →
  ∃ final b n', toc fmt others root hs = Some (final, b)
    ∧ get (dom b) q = Some n'
    ∧ tag_of n' = tag_of n
    ∧ tag_of <$> children n `prefix_of` tag_of <$> children n'.
Proof.
  intros Hq.
  destruct (toc_total fmt others root hs) as (final & b & Htoc & _ & Hb).
  destruct (each_loop_grows (init root) b final q n Hb Hq) as (n' & ? & ? & ?).
  by exists final, b, n'.
Qed.

Lemma root_content_is_kept_witness :
  let old := Node TLi [Node (TA (js "Home") (js "/")) []] in
  ∃ final b n',
    toc Underscore ∅ (Node TList [old]) [plain "A" 0; plain "B" 1] = Some (final, b)
    ∧ get (dom b) [0%nat] = Some n'
    ∧ tag_of n' = TLi
    ∧ [TA (js "Home") (js "/")] `prefix_of` tag_of <$> children n'.
Proof.
  intros old.
  exact (root_content_is_kept Underscore ∅ (Node TList [old])
           [plain "A" 0; plain "B" 1] [0%nat] old eq_refl).
Defined.

(** ** The open lists *)

Lemma open_lists_init (root : node) : tag_of root = TList → open_lists (init root).
Proof. intros H. apply Forall_singleton. by exists root. Qed.

Lemma adjust_open (b : builder) (level : option nat) (d : node) (st : list path) :
  open_lists b → adjust b level = Some (d, st) →
  open_lists {| dom := d; stack := st; currentLevel := level |}.
Proof.
  unfold open_lists, adjust. simpl. intros Hopen Ha.
  destruct (js_gt level (currentLevel b)).
  - destruct (head (stack b)) as [top|]; [|done]. simpl in Ha.
    destruct (get (dom b) top) as [topnode|]; [|done]. simpl in Ha.
    destruct (last_li (children topnode)) as [i|].
    + destruct (get (dom b) (top ++ [i])) as [pnode|] eqn:Hp; [|done]. simpl in Ha.
      injection Ha as <- <-. apply Forall_cons. split.
      * exists (Node TList []). split; [|done]. by apply get_append_child_new.
      * eapply Forall_impl; [exact Hopen|]. intros p (n & Hn & Htag). simpl in *.
        destruct (get_append_child_grows (dom b) (top ++ [i]) p (Node TList []) n Hn)
          as (n' & Hn' & Htag' & _).
        exists n'. split; [done|congruence].
    + by injection Ha as <- <-.
  - injection Ha as <- <-. by apply Forall_drop.
Qed.

Lemma each_step_open (b b' : builder) (elem : heading) :
  open_lists b → each_step b elem = Some b' →
  open_lists b'
  ∧ ∃ top n, head (stack b') = Some top
      ∧ get (dom b') top = Some n
      ∧ tag_of n = TList
      ∧ last (children n) = Some (item elem).
Proof.
  intros Hopen. unfold each_step.
  destruct (adjust b (level_of elem)) as [[d st]|] eqn:Ha; [|done]. simpl.
  destruct (head st) as [top|] eqn:Htop; [|done]. intros [= <-].
  assert (Hopen1 := adjust_open b _ d st Hopen Ha). unfold open_lists in *.
  simpl in *. split.
  - eapply Forall_impl; [exact Hopen1|]. intros p (n & Hn & Htag). simpl in *.
    destruct (get_append_child_grows d top p (item elem) n Hn)
      as (n' & Hn' & Htag' & _).
    exists n'. split; [done|congruence].
  - destruct st as [|top' st']; [done|]. injection Htop as ->.
    apply Forall_cons in Hopen1 as [(n & Hn & Htag) _].
    eexists top, _. split_and!; [done|by apply get_append_child_same|done|].
    apply last_snoc.
Qed.

Lemma each_loop_open (b b' : builder) (elems : list heading) :
  open_lists b → each_loop b elems = Some b' → open_lists b'.
Proof.
  revert b. induction elems as [|e elems IH]; intros b Hopen; simpl.
  - by intros [= <-].
  - destruct (each_step b e) as [b1|] eqn:Hstep; [|done]. simpl.
    apply IH. by apply (each_step_open b b1 e).
Qed.

(** X12.  The item of a heading is always made the last child of an
    element that has the tag of the root list, never of an item or a
    link, whatever the levels are and whatever the root held. *)
Theorem item_goes_into_a_list (root : node) (elems : list heading) (elem : heading) :
  tag_of root = TList →
  ∃ b b' top n,
    each_loop (init root) elems = Some b
    ∧ each_step b elem = Some b'
    ∧ head (stack b') = Some top
    ∧ get (dom b') top = Some n
    ∧ tag_of n = TList
    ∧ last (children n) = Some (item elem).
Proof.
  intros Hroot.
  destruct (each_loop_wf (init root) elems (wf_init root)) as (b & Hb & Hwf & _).
  destruct (each_step_wf b elem Hwf) as (b' & Hb' & _).
  assert (open_lists b) as Hopen.
  { by apply (each_loop_open (init root) b elems (open_lists_init root Hroot)). }
  destruct (each_step_open b b' elem Hopen Hb') as (_ & top & n & ? & ? & ? & ?).
  by exists b, b', top, n.
Qed.

Lemma item_goes_into_a_list_witness :
  ∃ b b' top n,
    each_loop (init (Node TList [])) [plain "A" 0; plain "B" 2] = Some b
    ∧ each_step b (plain "C" 1) = Some b'
    ∧ head (stack b') = Some top
    ∧ get (dom b') top = Some n
    ∧ tag_of n = TList
    ∧ last (children n) = Some (item (plain "C" 1)).
Proof.
  exact (item_goes_into_a_list (Node TList []) [plain "A" 0; plain "B" 2]
           (plain "C" 1) eq_refl).
Defined.

(** ** The right edge of the tree *)

Lemma rightmost_split (t : node) (i : nat) (x : node) :
  children t !! i = Some x → S i = length (children t) →
  children t = take i (children t) ++ [x] ∧ length (take i (children t)) = i.
Proof.
  intros Hx Hlen. split; [|rewrite length_take; lia].
  rewrite <-(take_drop_middle _ _ _ Hx) at 1. f_equal. f_equal.
  apply nil_length_inv. rewrite length_drop. lia.
Qed.

(** Appending on the right edge puts the new elements last in document
    order. *)
Lemma elements_append_rightmost (t : node) (p : path) (c : node) :
  rightmost t p → elements (append_child t p c) = elements t ++ elements c.
Proof.
  revert t. induction p as [|i p IH]; intros [tg cs]; simpl.
  - intros _. rewrite fmap_app, join_app. simpl. by rewrite app_nil_r.
  - intros (x & Hx & Hlen & Hr).
    destruct (rightmost_split (Node tg cs) i x Hx Hlen) as [Hcs Hi]. simpl in Hcs, Hi.
    f_equal. rewrite Hcs at 1.
    rewrite <-Hi at 1. rewrite <-(Nat.add_0_r (length (take i cs))).
    rewrite alter_app_r. simpl. rewrite fmap_app, join_app. simpl.
    rewrite (IH x Hr), app_nil_r.
    rewrite Hcs at 2. rewrite fmap_app, join_app. simpl.
    by rewrite app_nil_r, (assoc_L (++)).
Qed.

Lemma rightmost_append_prefix (t : node) (p q : path) (c : node) :
  q `prefix_of` p → rightmost t q → rightmost (append_child t p c) q.
Proof.
  revert t p. induction q as [|j q IH]; intros [tg cs] p Hpre; simpl; [done|].
  destruct p as [|i p]; [by apply prefix_nil_not in Hpre|].
  assert (j = i) as -> by (by apply prefix_cons_inv_1 in Hpre).
  apply prefix_cons_inv_2 in Hpre.
  intros (x & Hx & Hlen & Hr). simpl.
  exists (append_child x p c). split_and!.
  - by rewrite list_lookup_alter_eq, Hx.
  - by rewrite length_alter.
  - by apply IH.
Qed.

Lemma rightmost_app (t : node) (p q : path) (n : node) :
  rightmost t p → get t p = Some n → rightmost n q → rightmost t (p ++ q).
Proof.
  revert t. induction p as [|i p IH]; intros [tg cs]; simpl.
  - by intros _ [= ->].
  - intros (x & Hx & Hlen & Hr). rewrite Hx. simpl. intros Hn Hq.
    exists x. split_and!; [done|done|by apply IH].
Qed.

(** The tags of the children of an element above the place of the
    appending, or at it. *)
Lemma get_append_child_prefix (t : node) (p q : path) (c n : node) :
  q `prefix_of` p → get t q = Some n →
  ∃ n', get (append_child t p c) q = Some n'
    ∧ tag_of <$> children n'
        = (tag_of <$> children n) ++ (if decide (q = p) then [tag_of c] else []).
Proof.
  revert t p. induction q as [|j q IH]; intros [tg cs] p Hpre; simpl.
  - intros [= <-]. destruct p as [|i p]; simpl.
    + eexists. split; [done|]. cbn [children]. by rewrite fmap_app.
    + eexists. split; [done|]. cbn [children]. rewrite app_nil_r.
      apply fmap_tag_of_alter. intros x. apply tag_of_append_child.
  - destruct p as [|i p]; [by apply prefix_nil_not in Hpre|].
    assert (j = i) as -> by (by apply prefix_cons_inv_1 in Hpre).
    apply prefix_cons_inv_2 in Hpre.
    destruct (cs !! i) as [x|] eqn:Hx; simpl; [|done]. intros Hn.
    rewrite list_lookup_alter_eq, Hx. simpl.
    destruct (IH x p Hpre Hn) as (n' & Hn' & Htags).
    exists n'. split; [done|]. rewrite Htags.
    repeat case_decide; simplify_eq; done.
Qed.

Lemma all_li_tags (cs cs' : list node) (extra : list tag) :
  tag_of <$> cs' = (tag_of <$> cs) ++ extra →
  Forall (λ c, is_li c = true) cs → Forall (λ t, is_li_tag t = true) extra →
  Forall (λ c, is_li c = true) cs'.
Proof.
  intros Htags Hcs Hextra.
  assert (Forall (λ t, is_li_tag t = true) (tag_of <$> cs')) as H.
  { rewrite Htags. apply Forall_app. split; [|done].
    apply Forall_fmap. eapply Forall_impl; [exact Hcs|]. by intros []. }
  apply Forall_fmap in H. eapply Forall_impl; [exact H|]. by intros [].
Qed.

(** An open list on the edge stays one when a child is appended below it,
    or an item to it. *)
Lemma edge_entry_append (t : node) (p q : path) (c : node) :
  q `prefix_of` p → (q = p → is_li c = true) →
  (rightmost t q ∧ ∃ n, get t q = Some n ∧ Forall (λ c, is_li c = true) (children n)) →
  rightmost (append_child t p c) q
  ∧ ∃ n, get (append_child t p c) q = Some n
      ∧ Forall (λ c, is_li c = true) (children n).
Proof.
  intros Hpre Hc (Hr & n & Hn & Hli). split; [by apply rightmost_append_prefix|].
  destruct (get_append_child_prefix t p q c n Hpre Hn) as (n' & Hn' & Htags).
  exists n'. split; [done|]. eapply all_li_tags; [exact Htags|done|].
  case_decide as Heq; [|done]. apply Forall_singleton.
  specialize (Hc Heq). unfold is_li in Hc. by destruct (tag_of c).
Qed.

Lemma chain_head (st : list path) (top q : path) :
  chain st → head st = Some top → q ∈ st → q `prefix_of` top.
Proof.
  intros Hchain Htop [j Hj]%list_elem_of_lookup. rewrite head_lookup in Htop.
  apply (Hchain 0%nat j); [lia|done|done].
Qed.

Lemma chain_drop (st : list path) (k : nat) : chain st → chain (drop k st).
Proof.
  intros Hchain i j p q Hij. rewrite !lookup_drop. apply Hchain. lia.
Qed.

Lemma chain_cons (st : list path) (p : path) :
  chain st → (∀ q, q ∈ st → q `prefix_of` p) → chain (p :: st).
Proof.
  intros Hchain Hp [|i] [|j] p1 p2 Hij H1 H2; simplify_eq/=.
  - done.
  - apply Hp. by eapply list_elem_of_lookup_2.
  - lia.
  - apply (Hchain i j); [lia|done|done].
Qed.

Lemma on_the_edge_init (root : node) :
  Forall (λ c, is_li c = true) (children root) → on_the_edge (init root).
Proof.
  intros Hli. split; simpl.
  - intros [|i] [|j] p q Hij Hp Hq; simplify_eq/=; done.
  - apply Forall_singleton. split; [done|]. by exists root.
Qed.

Lemma last_li_is_last (cs : list node) (i : nat) :
  Forall (λ c, is_li c = true) cs → last_li cs = Some i → S i = length cs.
Proof.
  intros Hli [(n & Hn & _) Hlast]%last_li_Some.
  apply lookup_lt_Some in Hn as Hlt.
  destruct (decide (S i = length cs)) as [|Hne]; [done|].
  destruct (lookup_lt_is_Some_2 cs (S i)) as [m Hm]; [lia|].
  assert (is_li m = true) as Hm1.
  { eapply (proj1 (Forall_forall _ _) Hli). by eapply list_elem_of_lookup_2. }
  rewrite (Hlast (S i) m) in Hm1; [done|lia|done].
Qed.

Lemma adjust_edge (b : builder) (level : option nat) (d : node) (st : list path) :
  on_the_edge b → adjust b level = Some (d, st) →
  on_the_edge {| dom := d; stack := st; currentLevel := level |}
  ∧ ∃ e, elements d = elements (dom b) ++ e ∧ (e = [] ∨ e = [TList]).
Proof.
  unfold on_the_edge, adjust. simpl. intros [Hchain Hedge] Ha.
  destruct (js_gt level (currentLevel b)).
  - destruct (head (stack b)) as [top|] eqn:Htop; [|done]. simpl in Ha.
    destruct (get (dom b) top) as [topnode|] eqn:Hget; [|done]. simpl in Ha.
    destruct (last_li (children topnode)) as [i|] eqn:Hi.
    + destruct (get (dom b) (top ++ [i])) as [pnode|] eqn:Hp; [|done]. simpl in Ha.
      injection Ha as <- <-.
      assert (top ∈ stack b) as Hin.
      { rewrite head_lookup in Htop. by eapply list_elem_of_lookup_2. }
      destruct (proj1 (Forall_forall _ _) Hedge top Hin) as (Hrtop & n & Hn & Hli).
      rewrite Hget in Hn. injection Hn as <-.
      assert (Hlen := last_li_is_last _ _ Hli Hi).
      assert (children topnode !! i = Some pnode) as Hchild.
      { rewrite get_app, Hget in Hp. simpl in Hp.
        by destruct (children topnode !! i). }
      assert (rightmost (dom b) (top ++ [i])) as Hrp.
      { apply (rightmost_app _ _ _ topnode); [done|done|]. by exists pnode. }
      split; [split|].
      * apply chain_cons; [done|]. intros q Hq.
        etrans; [by apply (chain_head (stack b) top)|].
        rewrite <-(assoc_L (++)). by apply prefix_app_r.
      * apply Forall_cons. split.
        -- split.
           ++ eapply rightmost_app.
              ** by apply rightmost_append_prefix.
              ** by apply get_append_child_same.
              ** exists (Node TList []). cbn [children]. split_and!; [|by rewrite length_app, Nat.add_1_r|done].
                 by rewrite lookup_app_r, Nat.sub_diag by lia.
           ++ exists (Node TList []). split; [by apply get_append_child_new|done].
        -- apply Forall_forall. intros q Hq.
           assert (q `prefix_of` top) as Hpre by (by apply (chain_head (stack b))).
           apply edge_entry_append.
           ++ by apply prefix_app_r.
           ++ intros ->. apply prefix_length in Hpre. rewrite length_app in Hpre.
              simpl in Hpre. lia.
           ++ by apply (proj1 (Forall_forall _ _) Hedge).
      * exists [TList]. split; [|by right].
        by rewrite elements_append_rightmost.
    + injection Ha as <- <-. split; [done|].
      exists []. split; [by rewrite app_nil_r|by left].
  - injection Ha as <- <-. split; [split|].
    + by apply chain_drop.
    + by apply Forall_drop.
    + exists []. split; [by rewrite app_nil_r|by left].
Qed.

Lemma each_step_edge (b b' : builder) (elem : heading) :
  on_the_edge b → each_step b elem = Some b' →
  on_the_edge b' ∧ anchors (dom b') = anchors (dom b) ++ [link elem].
Proof.
  intros Hedge. unfold each_step.
  destruct (adjust b (level_of elem)) as [[d st]|] eqn:Ha; [|done]. simpl.
  destruct (head st) as [top|] eqn:Htop; [|done]. intros [= <-].
  destruct (adjust_edge b _ d st Hedge Ha) as ([Hchain Hentries] & e & He & Hcase).
  simpl in Hchain, Hentries.
  assert (top ∈ st) as Hin.
  { rewrite head_lookup in Htop. by eapply list_elem_of_lookup_2. }
  destruct (proj1 (Forall_forall _ _) Hentries top Hin) as (Hrtop & _).
  split; [split|]; simpl.
  - done.
  - apply Forall_forall. intros q Hq. apply edge_entry_append.
    + by apply (chain_head st).
    + done.
    + by apply (proj1 (Forall_forall _ _) Hentries).
  - unfold anchors. rewrite (elements_append_rightmost d top _ Hrtop), He.
    rewrite !omap_app. destruct Hcase as [-> | ->]; simpl; by rewrite app_nil_r.
Qed.

Lemma each_loop_edge (b b' : builder) (elems : list heading) :
  on_the_edge b → each_loop b elems = Some b' →
  on_the_edge b' ∧ anchors (dom b') = anchors (dom b) ++ (link <$> elems).
Proof.
  revert b. induction elems as [|e elems IH]; intros b Hedge; simpl.
  - intros [= <-]. by rewrite app_nil_r.
  - destruct (each_step b e) as [b1|] eqn:Hstep; [|done]. simpl. intros Hloop.
    destruct (each_step_edge b b1 e Hedge Hstep) as [Hedge1 Ha1].
    destruct (IH b1 Hedge1 Hloop) as [Hedge' Ha'].
    split; [done|]. rewrite Ha', Ha1. by rewrite <-(assoc_L (++)).
Qed.

(** X13.  When the root list holds nothing but items at the start (none,
    for instance), the links of the outline, read in document order, are
    the links the root had followed by one link per heading in the order
    of the headings: text of the heading, target "#" + its id. *)
Theorem links_in_document_order (fmt : idFormat) (others : registry) (root : node)
    (hs : list heading) :
  Forall (λ c, is_li c = true) (children root) →
  ∃ final b, toc fmt others root hs = Some (final, b)
    ∧ text <$> final = text <$> hs
    ∧ anchors (dom b) = anchors root ++ (link <$> final).
Proof.
  intros Hli.
  destruct (toc_total fmt others root hs) as (final & b & Htoc & Hrun & Hb).
  destruct (each_loop_edge (init root) b final (on_the_edge_init root Hli) Hb)
    as [_ Ha].
  exists final, b. split_and!; [done| |done].
  apply list_eq. intros j. rewrite !list_lookup_fmap.
  destruct (hs !! j) as [h|] eqn:Hj; simpl.
  - destruct (run_lookup fmt others hs final Hrun j h Hj) as (v & -> & _). done.
  - rewrite (proj2 (lookup_ge_None final j)); [done|].
    rewrite (run_length fmt others hs final Hrun). by apply lookup_ge_None.
Qed.

Lemma links_in_document_order_witness :
  ∃ final b,
    toc Kebab ∅ (Node TList [])
      [plain "Zoo" 0; plain "Apple pie" 2; plain "Zoo" 1; plain "Mid" 0]
      = Some (final, b)
    ∧ anchors (dom b)
        = [(js "Zoo", js "#zoo"); (js "Apple pie", js "#apple-pie");
           (js "Zoo", js "#zoo-1"); (js "Mid", js "#mid")].
Proof.
  destruct (links_in_document_order Kebab ∅ (Node TList [])
              [plain "Zoo" 0; plain "Apple pie" 2; plain "Zoo" 1; plain "Mid" 0])
    as (final & b & Htoc & _ & Ha).
  - apply Forall_nil_2.
  - exists final, b. split; [exact Htoc|]. rewrite Ha.
    vm_compute in Htoc. injection Htoc as <- _. reflexivity.
Defined.

(** ** When the generated id is empty *)





(** ** The markup of the outline *)

Lemma well_formed_list (cs : list node) :
  well_formed (Node TList cs) ↔ Forall (λ c, tag_of c = TLi ∧ well_formed c) cs.
Proof.
  simpl. induction cs as [|c cs IH]; [by split|].
  rewrite Forall_cons, <-IH. done.
Qed.

Lemma well_formed_item : ∀ elem, well_formed (item elem).
Proof. intros elem. simpl. by eexists _, _. Qed.

Lemma children_append_nonempty (t : node) (p : path) (c : node) :
  children t ≠ [] → children (append_child t p c) ≠ [].
Proof.
  destruct t as [tg cs], p as [|i p]; simpl; intros Hne.
  - by destruct cs.
  - intros Heq. apply (f_equal length) in Heq. rewrite length_alter in Heq.
    by destruct cs.
Qed.

(** Every element of a well-formed tree is well-formed. *)
Lemma well_formed_get (t : node) (p : path) (n : node) :
  well_formed t → get t p = Some n → well_formed n.
Proof.
  revert t. induction p as [|i p IH]; intros t Hwf; simpl; [by intros [= <-]|].
  destruct (children t !! i) as [x|] eqn:Hx; simpl; [|done].
  apply IH. destruct t as [[| |txt href] cs]; simpl in Hx.
  - apply well_formed_list in Hwf.
    by apply (proj1 (Forall_forall _ _) Hwf x (list_elem_of_lookup_2 _ _ _ Hx)).
  - destruct cs as [|a [|l [|? ?]]]; try done.
    + destruct i; simplify_eq/=. destruct Hwf as (? & ? & ->). done.
    + destruct Hwf as ((? & ? & ->) & ? & ? & ?).
      destruct i as [|[|i]]; simplify_eq/=; done.
  - simpl in Hwf. subst cs. done.
Qed.

(** If the element that receives a child is well-formed with it, so is
    the tree. *)
Lemma well_formed_append (t : node) (p : path) (c n : node) :
  well_formed t → get t p = Some n →
  well_formed (Node (tag_of n) (children n ++ [c])) →
  well_formed (append_child t p c).
Proof.
  revert t. induction p as [|i p IH]; intros t Hwf; cbn [get append_child].
  - intros [= <-] Hext. destruct t as [tg cs]. exact Hext.
  - destruct (children t !! i) as [x|] eqn:Hx; simpl; [|done]. intros Hn Hext.
    destruct t as [[| |txt href] cs]; simpl in Hx |- *.
    + apply well_formed_list in Hwf. apply well_formed_list.
      apply Forall_alter; [done|]. intros y Hy [Htag Hy']. simplify_eq.
      split; [by rewrite tag_of_append_child|by apply IH].
    + destruct cs as [|a [|l [|? ?]]]; try done.
      * destruct i; simplify_eq/=. destruct Hwf as (? & ? & ->).
        destruct p; by simplify_eq/=.
      * destruct Hwf as ((? & ? & ->) & Htag & Hne & Hl).
        destruct i as [|[|i]]; simplify_eq/=.
        -- destruct p; by simplify_eq/=.
        -- split_and!; [by eexists _, _|by rewrite tag_of_append_child
                        |by apply children_append_nonempty|by apply IH].
    + simpl in Hwf. subst cs. done.
Qed.

(** A child and then a child of that child, in one step. *)
Lemma append_child_twice (t : node) (p : path) (n c1 c2 : node) :
  get t p = Some n →
  append_child (append_child t p c1) (p ++ [length (children n)]) c2
  = append_child t p (Node (tag_of c1) (children c1 ++ [c2])).
Proof.
  revert t. induction p as [|i p IH]; intros [tg cs]; simpl.
  - intros [= <-]. simpl. f_equal.
    rewrite <-(Nat.add_0_r (length cs)), alter_app_r. simpl. by destruct c1.
  - destruct (cs !! i) as [x|] eqn:Hx; simpl; [|done]. intros Hn. f_equal.
    rewrite list_alter_alter_eq. apply list_alter_ext; [|done].
    intros y Hy. simplify_eq. simpl. by apply IH.
Qed.

Lemma each_step_well (b b' : builder) (elem : heading) :
  open_lists b → well_formed (dom b) → leaf_last b →
  each_step b elem = Some b' → well_formed (dom b').
Proof.
  intros Hopen Hwf Hleaf. unfold each_step, adjust, open_lists in *.
  assert (∀ top, top ∈ stack b →
            well_formed (append_child (dom b) top (item elem))) as Hplain.
  { intros top Hin.
    destruct (proj1 (Forall_forall _ _) Hopen top Hin) as (n & Hn & Htag).
    apply (well_formed_append _ _ _ n Hwf Hn). rewrite Htag.
    assert (Hn' := well_formed_get _ _ _ Hwf Hn).
    destruct n as [tg cs]. simpl in Htag. subst tg. cbn [children].
    apply well_formed_list. apply well_formed_list in Hn'.
    apply Forall_app. split; [done|].
    apply Forall_singleton. split; [done|apply well_formed_item]. }
  destruct (js_gt (level_of elem) (currentLevel b)).
  - destruct (head (stack b)) as [top|] eqn:Htop; [|done]. simpl.
    assert (top ∈ stack b) as Hin.
    { rewrite head_lookup in Htop. by eapply list_elem_of_lookup_2. }
    destruct (get (dom b) top) as [topnode|] eqn:Hget; [|done]. simpl.
    destruct (last_li (children topnode)) as [i|] eqn:Hi.
    + destruct (get (dom b) (top ++ [i])) as [pnode|] eqn:Hp; [|done]. simpl.
      intros [= <-]. simpl. rewrite (append_child_twice _ _ pnode) by done.
      apply (well_formed_append _ _ _ pnode Hwf Hp).
      destruct (proj1 (Forall_forall _ _) Hopen top Hin) as (n & Hn & Htag).
      rewrite Hget in Hn. injection Hn as <-.
      assert (Htopwf := well_formed_get _ _ _ Hwf Hget).
      destruct topnode as [tg cs]. simpl in Htag. subst tg. cbn [children] in *.
      apply well_formed_list in Htopwf.
      assert (children_li : Forall (λ c, is_li c = true) cs).
      { eapply Forall_impl; [exact Htopwf|]. intros c [Hc _]. unfold is_li.
        by rewrite Hc. }
      assert (Hlen := last_li_is_last cs i children_li Hi).
      assert (cs !! i = Some pnode) as Hchild.
      { rewrite get_app, Hget in Hp. simpl in Hp. by destruct (cs !! i). }
      destruct (proj1 (Forall_forall _ _) Htopwf pnode
                  (list_elem_of_lookup_2 _ _ _ Hchild)) as [Hptag Hpwf].
      assert (length (children pnode) = 1%nat) as Hone.
      { apply (Hleaf top (Node TList cs) pnode Htop Hget).
        cbn [children]. rewrite last_lookup, <-Hlen. done. }
      destruct pnode as [ptg pcs]. simpl in Hptag, Hone. subst ptg.
      destruct pcs as [|a [|? ?]]; try done. simpl in Hpwf. simpl.
      split_and!; [done|done|done|done|apply well_formed_item|done].
    + simpl. rewrite Htop. simpl. intros [= <-]. simpl. by apply Hplain.
  - simpl.
    destruct (head (drop _ (stack b))) as [top|] eqn:Htop; [|done].
    intros [= <-]. simpl. apply Hplain.
    rewrite head_lookup in Htop. apply list_elem_of_lookup_2 in Htop.
    by eapply subseteq_drop.
Qed.

Lemma each_step_leaf_last (b b' : builder) (elem : heading) :
  open_lists b → each_step b elem = Some b' → leaf_last b'.
Proof.
  intros Hopen Hstep.
  destruct (each_step_open b b' elem Hopen Hstep)
    as (_ & top & n & Htop & Hn & _ & Hlast).
  intros top' n' c Htop' Hn' Hc. by simplify_eq.
Qed.

Lemma each_loop_well (b b' : builder) (elems : list heading) :
  open_lists b → well_formed (dom b) → leaf_last b →
  each_loop b elems = Some b' → well_formed (dom b').
Proof.
  revert b. induction elems as [|e elems IH]; intros b Hopen Hwf Hleaf; simpl.
  - by intros [= <-].
  - destruct (each_step b e) as [b1|] eqn:Hstep; [|done]. simpl. apply IH.
    + by apply (each_step_open b b1 e).
    + by apply (each_step_well b b1 e).
    + by apply (each_step_leaf_last b b1 e).
Qed.

(** X15.  The outline is well-formed markup whatever the levels of the
    headings are: lists hold items only, every item holds one link and at
    most one list after it, and no list below the root is empty.  This
    holds from an empty root list, and from any well-formed root list
    whose last item has no list below it. *)
Theorem outline_is_well_formed (fmt : idFormat) (others : registry) (root : node)
    (hs : list heading) :
  tag_of root = TList → well_formed root →
  (∀ c, last (children root) = Some c → length (children c) = 1%nat) →
  ∃ final b, toc fmt others root hs = Some (final, b) ∧ well_formed (dom b).
Proof.
  intros Htag Hwf Hlast.
  destruct (toc_total fmt others root hs) as (final & b & Htoc & _ & Hb).
  exists final, b. split; [done|].
  apply (each_loop_well (init root) b final); [by apply open_lists_init|done| |done].
  intros top n c [= <-] [= <-]. apply Hlast.
Qed.

Lemma outline_is_well_formed_witness :
  ∃ final b,
    toc Underscore ∅ (Node TList [])
      [plain "A" 2; plain "B" 0; plain "C" 2; plain "D" 1; plain "E" 0]
      = Some (final, b)
    ∧ well_formed (dom b).
Proof.
  apply (outline_is_well_formed Underscore ∅ (Node TList [])
           [plain "A" 2; plain "B" 0; plain "C" 2; plain "D" 1; plain "E" 0]).
  - reflexivity.
  - exact I.
  - intros c Hc. discriminate Hc.
Defined.

(** ** Instances *)

Lemma generated_id_first_free_witness :
  ∃ k : N,
    generateUniqueId Underscore {[ js "a"; js "a_1" ]} (js "a")
      = Some (candidate (baseId Underscore (sanitise (js "a")))
                (spaceReplacement Underscore) k)
    ∧ (N.to_nat k ≤ size ({[ js "a"; js "a_1" ]} : registry))%nat
    ∧ getElementById {[ js "a"; js "a_1" ]}
        (candidate (baseId Underscore (sanitise (js "a")))
           (spaceReplacement Underscore) 0) = true.
Proof.
  destruct (generated_id_first_free Underscore {[ js "a"; js "a_1" ]} (js "a"))
    as (k & Hk & Hb & Hfree & Htaken).
  exists k. split; [exact Hk|]. split; [exact Hb|]. apply Htaken.
  destruct (N.eq_dec k 0) as [->|Hne]; [|lia].
  vm_compute in Hfree. discriminate Hfree.
Defined.

Lemma level_is_first_match_witness :
  let elem := {| text := js "T"; id_attr := None; is_ := [false; true; true] |} in
  is_ elem !! 1%nat = Some true
  ∧ (1 < length (is_ elem))%nat
  ∧ ∀ j, (j < 1)%nat → is_ elem !! j = Some false.
Proof.
  intros elem. exact (level_is_first_match elem).
Defined.


(** ** White space at the start of the text *)

Lemma sanitise_leading_space (c : N) (rest : jsstring) :
  is_space c = true →
  sanitise (c :: rest) = 32 :: strip_invalid (collapse_go true rest).
Proof.
  intros Hc. unfold sanitise, collapse_spaces. simpl decide. cbn iota.
  simpl. rewrite Hc. unfold strip_invalid. by rewrite filter_cons_True.
Qed.

(** X16.  The text is not trimmed: when it starts with white space, as
    the text of a heading written on lines of its own does, the id
    generated in the underscore or the kebab format starts with the
    separator of the format. *)
Theorem leading_space_becomes_separator (fmt : idFormat) (reg : registry)
    (c : N) (rest : jsstring) :
  fmt ≠ Camel → is_space c = true →
  ∃ v, generateUniqueId fmt reg (c :: rest) = Some v
    ∧ head v = head (spaceReplacement fmt).
Proof.
  intros Hfmt Hc.
  destruct (generateUniqueId_first_free fmt reg (c :: rest)) as (k & -> & _).
  eexists. split; [done|]. unfold candidate.
  rewrite (sanitise_leading_space c rest Hc).
  destruct fmt; [| |done]; done.
Qed.

Lemma leading_space_becomes_separator_witness :
  ∃ v, generateUniqueId Kebab ∅ (10 :: js "  My Title") = Some v
    ∧ head v = Some 45.
Proof.
  apply (leading_space_becomes_separator Kebab ∅ 10 (js "  My Title")).
  - discriminate.
  - reflexivity.
Defined.

(** ** The ids of the document during the pass *)

Lemma registry_at_mono (fmt : idFormat) (others : registry)
    (hs final : list heading) (i j : nat) :
  attr_loop fmt others [] hs = Some final → (i ≤ j)%nat →
  registry_at others hs final i ⊆ registry_at others hs final j.
Proof.
  intros Hrun Hij s. unfold registry_at. rewrite !elem_of_document_ids.
  intros [?|(h & Hh & Hs)]; [by left|right].
  apply elem_of_app in Hh as [Hh|Hh].
  - exists h. split; [|done]. apply elem_of_app. left.
    apply elem_of_take in Hh as (k & Hk & Hlt). apply elem_of_take.
    exists k. split; [done|lia].
  - apply list_elem_of_lookup in Hh as [k Hk]. rewrite lookup_drop in Hk.
    exists h. split; [|done]. apply elem_of_app.
    destruct (decide (i + k < j)%nat) as [Hlt|Hge].
    + left. apply elem_of_take. exists (i + k)%nat. split; [|done].
      apply (run_kept fmt others hs final Hrun); [done|by eexists].
    + right. apply list_elem_of_lookup. exists (i + k - j)%nat.
      rewrite lookup_drop. by replace (j + (i + k - j))%nat with (i + k)%nat by lia.
Qed.

(** X17.  During the pass the document only gains ids: what
    [getElementById] can find when a heading is visited it can find at
    every later heading; all ids of the document at the start are there
    at the end. *)
Theorem registry_only_grows (fmt : idFormat) (others : registry) (hs : list heading) :
  ∃ final, attr_loop fmt others [] hs = Some final
    ∧ registry_at others hs final 0 = document_ids others hs
    ∧ registry_at others hs final (length hs) = document_ids others final
    ∧ (document_ids others hs ⊆ document_ids others final)
    ∧ ∀ i j, (i ≤ j)%nat →
        registry_at others hs final i ⊆ registry_at others hs final j.
Proof.
  destruct (attr_loop_total fmt others [] hs) as [final Hrun].
  assert (Hlen := run_length fmt others hs final Hrun).
  assert (registry_at others hs final 0 = document_ids others hs) as H0.
  { unfold registry_at. by rewrite take_0, drop_0. }
  assert (registry_at others hs final (length hs) = document_ids others final) as Hn.
  { unfold registry_at. by rewrite <-Hlen, firstn_all, Hlen, drop_all, app_nil_r. }
  exists final. split_and!; [done|done|done| |].
  - rewrite <-H0, <-Hn. apply (registry_at_mono fmt); [done|lia].
  - intros i j Hij. by apply (registry_at_mono fmt).
Qed.

Lemma registry_only_grows_witness :
  ∃ final,
    attr_loop Underscore {[ js "top" ]} [] [plain "top" 0; with_id "B" "b" 1]
      = Some final
    ∧ registry_at {[ js "top" ]} [plain "top" 0; with_id "B" "b" 1] final 0
      ⊆ registry_at {[ js "top" ]} [plain "top" 0; with_id "B" "b" 1] final 1.
Proof.
  destruct (registry_only_grows Underscore {[ js "top" ]}
              [plain "top" 0; with_id "B" "b" 1])
    as (final & Hrun & _ & _ & _ & Hmono).
  exists final. split; [exact Hrun|]. apply Hmono. lia.
Defined.
